(** * Chunk-level precision, recall and F1 for BIO-tagged sequences

    A shallow embedding of [calculateF1] and of its inner function
    [get_entities] from [12.ner/SequenceLabelingBiLSTM.ipynb], and the
    properties of the two that the specification of the scorer states.

    Python values are modelled as follows.
    - [str] is [string]; [tag.split("-")] is [str_split "-" tag].
    - [int] is [Z], so that [w_idx-1] and [len(sent)-1] are the integer
      subtractions the source performs (no truncation at zero).
    - a variable holding [None] or a value is an [option]; the local name
      [cat], which is unbound until its first assignment, is an [option]
      too and reading it while unbound raises.  The temporary [end] is
      written and never read again, so it is not kept.
    - a tuple [(s_idx, start, end, startCat)] is a 4-tuple whose last field
      is whatever [startCat] holds, hence an [option string].
    - [for i in range(len(xs))] with [x=xs[i]] is a recursion on [xs] that
      carries the index [i].
    - [set(...)] is a [gset]; [len] of a set is [size].
    - exceptions are the [Raise] results of the monad [py].
    - the numbers of the metrics are behind the class [PyNumber], with two
      instances: exact rationals [Qc], where rounding is abstracted away,
      and IEEE binary64 [float], which is what Python computes with. *)

From Stdlib Require Import ZArith QArith Qcanon Ascii String Lia.
From Stdlib Require Import Floats Numbers.Cyclic.Int63.Uint63.
From stdpp Require Import gmap strings list sorting.

#[local] Open Scope string_scope.
#[local] Open Scope list_scope.
#[local] Open Scope Z_scope.

(** ** Exceptions *)

Inductive exn : Set :=
| UnboundLocalError
| ZeroDivisionError.

Inductive py (A : Type) : Type :=
| Ok (a : A)
| Raise (e : exn).
Arguments Ok {A} a.
Arguments Raise {A} e.

#[global] Instance py_ret : MRet py := @Ok.
#[global] Instance py_bind : MBind py := λ A B f m,
  match m with
  | Ok a => f a
  | Raise e => Raise e
  end.

(** ** Strings *)

(** [s.split(sep)] for a one-character separator: [k] occurrences of [sep]
    give [k+1] parts, empty parts included. *)
Fixpoint str_split (sep : ascii) (s : string) : list string :=
  match s with
  | EmptyString => [EmptyString]
  | String c s' =>
      if decide (c = sep) then EmptyString :: str_split sep s'
      else match str_split sep s' with
           | p :: ps => String c p :: ps
           | [] => [String c EmptyString]
           end
  end.

(** ** Chunks and the local variables of [get_entities] *)

Abbreviation chunk := (Z * Z * Z * option string)%type.

Record locals : Type := Locals {
  ents : list chunk;
  start : option Z;
  startCat : option string;
  cat : option string   (* [None]: the name is not bound yet *)
}.

Definition set_cat (c : option string) (st : locals) : locals :=
  {| ents := ents st; start := start st; startCat := startCat st; cat := c |}.

Definition close_chunk (s_idx end_ : Z) (st : locals) : locals :=
  match start st with
  | Some b =>
      {| ents := ents st ++ [(s_idx, b, end_, startCat st)];
         start := None; startCat := None; cat := cat st |}
  | None => st
  end.

Definition open_chunk (w_idx : Z) (st : locals) : py locals :=
  match cat st with
  | Some c =>
      Ok {| ents := ents st; start := Some w_idx; startCat := Some c;
            cat := cat st |}
  | None => Raise UnboundLocalError
  end.

(** [parse_tag tag c] is the pair ([BIO], [cat]) after
    [[
      parts=tag.split("-")
      BIO="O"
      if len(parts) == 2:
          BIO=parts[0]
          cat=parts[1]
    ]]
    when [cat] was [c] before. *)
Definition parse_tag (tag : string) (c : option string)
  : string * option string :=
  match str_split "-" tag with
  | [p0; p1] => (p0, Some p1)
  | _ => ("O", c)
  end.

(** The body of [for w_idx in range(len(sent))], with [tag=sent[w_idx]]. *)
Definition word_body (s_idx w_idx : Z) (tag : string) (st : locals)
  : py locals :=
  let '(BIO, c) := parse_tag tag (cat st) in
  let st1 := set_cat c st in
  let st2 :=
    if bool_decide (BIO = "B") || bool_decide (BIO = "O")
    then close_chunk s_idx (w_idx - 1) st1
    else st1 in
  if bool_decide (BIO = "B") then open_chunk w_idx st2 else Ok st2.

(** The loop over the words of one sentence, from index [w_idx] on. *)
Fixpoint scan_words (s_idx w_idx : Z) (sent : list string) (st : locals)
  : py locals :=
  match sent with
  | [] => Ok st
  | tag :: rest =>
      st' ← word_body s_idx w_idx tag st;
      scan_words s_idx (w_idx + 1) rest st'
  end.

Definition reset_start (st : locals) : locals :=
  {| ents := ents st; start := None; startCat := None; cat := cat st |}.

(** The body of [for s_idx in range(len(sequences))], with
    [sent=sequences[s_idx]]. *)
Definition sentence_body (s_idx : Z) (sent : list string) (st : locals)
  : py locals :=
  st' ← scan_words s_idx 0 sent (reset_start st);
  mret (match start st' with
        | Some b =>
            {| ents := ents st' ++
                       [(s_idx, b, Z.of_nat (length sent) - 1, startCat st')];
               start := start st'; startCat := startCat st'; cat := cat st' |}
        | None => st'
        end).

Fixpoint scan_sentences (s_idx : Z) (sequences : list (list string))
    (st : locals) : py locals :=
  match sequences with
  | [] => Ok st
  | sent :: rest =>
      st' ← sentence_body s_idx sent st;
      scan_sentences (s_idx + 1) rest st'
  end.

(** The locals on entry: [ents=[]]; [start] and [startCat] are assigned at
    the top of every sentence before any read, [cat] is unbound. *)
Definition entry : locals :=
  {| ents := []; start := None; startCat := None; cat := None |}.

Definition get_entities (sequences : list (list string)) : py (list chunk) :=
  st ← scan_sentences 0 sequences entry;
  mret (ents st).

(** ** The numbers of the metrics *)

Class PyNumber (F : Type) : Type := {
  of_int : Z → F;            (* [float(n)], and an [int] operand promoted *)
  num_add : F → F → F;
  num_mul : F → F → F;
  num_quot : F → F → F;      (* the quotient by a divisor that is not zero *)
  num_is_zero : F → bool;
  num_gt : F → F → bool
}.

(** [a / b]: Python raises on a zero divisor. *)
Definition num_div {F : Type} `{PyNumber F} (a b : F) : py F :=
  if num_is_zero b then Raise ZeroDivisionError else Ok (num_quot a b).

#[global] Instance Qc_number : PyNumber Qc := {
  of_int z := Q2Qc (inject_Z z);
  num_add := Qcplus;
  num_mul := Qcmult;
  num_quot := Qcdiv;
  num_is_zero b := bool_decide (b = Q2Qc 0);
  num_gt a b := bool_decide (Qclt b a)
}.

(** binary64.  [of_int] is the conversion of a 63-bit integer, exact for
    [0 <= z < 2^53] and rounded to nearest above; a [len] is in this
    range. *)
#[global] Instance float_number : PyNumber float := {
  of_int z := PrimFloat.of_uint63 (Uint63.of_Z z);
  num_add := PrimFloat.add;
  num_mul := PrimFloat.mul;
  num_quot := PrimFloat.div;
  num_is_zero b := PrimFloat.eqb b PrimFloat.zero;
  num_gt a b := PrimFloat.ltb b a
}.

(** ** [calculateF1] *)

Definition len_set (s : gset chunk) : Z := Z.of_nat (size s).

Definition calculateF1 {F : Type} `{PyNumber F}
    (gold_sequences predicted_sequences : list (list string))
  : py (F * F * F) :=
  gold_ents ← get_entities gold_sequences;
  pred_ents ← get_entities predicted_sequences;
  let g_set : gset chunk := list_to_set gold_ents in
  let p_set : gset chunk := list_to_set pred_ents in
  precision ←
    (if bool_decide (len_set p_set > 0)
     then num_div (of_int (len_set (g_set ∩ p_set))) (of_int (len_set p_set))
     else mret (of_int 0));
  recall ←
    (if bool_decide (len_set g_set > 0)
     then num_div (of_int (len_set (g_set ∩ p_set))) (of_int (len_set g_set))
     else mret (of_int 0));
  F1 ←
    (if num_gt (num_add precision recall) (of_int 0)
     then num_div (num_mul (num_mul (of_int 2) precision) recall)
                  (num_add precision recall)
     else mret (of_int 0));
  mret (precision, recall, F1).

(** The chunk set of a dataset: [set(get_entities(sequences))]. *)
Definition extract (sequences : list (list string)) : py (gset chunk) :=
  l ← get_entities sequences; mret (list_to_set l).

(** ** The literal scenario of the docstring *)

Definition gold_example : list (list string) :=
  [["B-PER"; "I-PER"; "O"; "O"; "O"; "O"; "B-ORG"]; ["O"; "O"; "O"]].

Definition predicted_example : list (list string) :=
  [["B-PER"; "O"; "O"; "O"; "B-PER"; "O"; "B-ORG"]; ["O"; "O"; "O"]].

(** * The rest of the notebook: data preparation and the callback

    [read_tsv], [get_tag_vocab], the construction of [rev_tags],
    [get_word_ids], [predict] and [F_score.on_epoch_end].  What these take
    from outside is an argument of the model:
    - the file that [read_tsv] opens is the list of its lines, as the
      iteration over the file yields them;
    - [str.rstrip] and [str.lower] are the arguments [rstrip] and [lower];
    - the network is the function that gives, for the word ids of a
      sentence, the class of each word
      ([model.predict(...).argmax(axis=-1)]);
    - a numpy array of two or three axes is the list of its rows; the
      indices that the code uses on them come from [range], so they are
      natural numbers.
    A dictionary that is only looked up is a [gmap]; the dictionary that
    [get_tag_vocab] builds and that is iterated afterwards is the list of
    its items in insertion order. *)

(** ** Exceptions *)

Inductive error : Set :=
| KeyError
| IndexError
| ValueError
| ScorerError (e : exn).

Inductive run (A : Type) : Type :=
| Done (a : A)
| Throw (e : error).
Arguments Done {A} a.
Arguments Throw {A} e.

#[global] Instance run_ret : MRet run := @Done.
#[global] Instance run_bind : MBind run := λ A B f m,
  match m with
  | Done a => f a
  | Throw e => Throw e
  end.

Definition of_py {A : Type} (m : py A) : run A :=
  match m with
  | Ok a => Done a
  | Raise e => Throw (ScorerError e)
  end.

(** [d[k]] *)
Definition dict_get {K : Type} `{Countable K} {V : Type}
    (d : gmap K V) (k : K) : run V :=
  match d !! k with
  | Some v => Done v
  | None => Throw KeyError
  end.

(** [a[i]] on an array of one axis, [i] from a [range]. *)
Definition np_get {A : Type} (a : list A) (i : nat) : run A :=
  match a !! i with
  | Some v => Done v
  | None => Throw IndexError
  end.

(** [a[i,j]] on an array of two axes. *)
Definition np_get2 {A : Type} (a : list (list A)) (i j : nat) : run A :=
  row ← np_get a i; np_get row j.

(** ** [read_tsv] *)

Definition tab : ascii := "009"%char.

(** The body of [for line in file]: the state is ([sentences],
    [sentence]). *)
Definition line_body (rstrip : string → string)
    (st : list (list (string * string)) * list (string * string))
    (line : string)
  : list (list (string * string)) * list (string * string) :=
  let '(sentences, sentence) := st in
  match str_split tab (rstrip line) with
  | word :: tag :: _ => (sentences, sentence ++ [(word, tag)])
  | _ =>
      (if bool_decide (0 < length sentence)%nat
       then sentences ++ [sentence] else sentences, [])
  end.

Definition read_tsv (rstrip : string → string) (lines : list string)
  : list (list (string * string)) :=
  let '(sentences, sentence) := foldl (line_body rstrip) ([], []) lines in
  if bool_decide (0 < length sentence)%nat
  then sentences ++ [sentence] else sentences.

(** ** [get_tag_vocab] and [rev_tags] *)

(** The body of [for word, tag in sentence]: the state is ([tags], [tid]),
    [tags] as its items in insertion order. *)
Definition tag_body (st : list (string * Z) * Z) (wt : string * string)
  : list (string * Z) * Z :=
  let '(tags, tid) := st in
  if bool_decide (wt.2 ∈ tags.*1) then st
  else (tags ++ [(wt.2, tid)], tid + 1).

Definition get_tag_vocab (sentences : list (list (string * string)))
  : list (string * Z) :=
  (foldl (foldl tag_body) ([], 1) sentences).1.

(** The dictionary whose items are [items]. *)
Definition as_dict (items : list (string * Z)) : gmap string Z :=
  list_to_map items.

(** [[
      rev_tags={}
      for t in tag_vocab:
          rev_tags[tag_vocab[t]]=t
    ]]
    [tag_vocab[t]] is the value of the item whose key is [t]. *)
Definition reverse_vocab (tag_vocab : list (string * Z)) : gmap Z string :=
  foldl (λ rev_tags item, <[item.2 := item.1]> rev_tags) ∅ tag_vocab.

(** ** [get_word_ids] *)

(** [keras.utils.to_categorical(y, num_classes)] for one class [y]: the
    row of [num_classes] numbers, 1 at index [y] and 0 elsewhere.  A
    [num_classes] of 0 is replaced by [y + 1]; a negative [y] counts from
    the end, as numpy indices do. *)
Definition one_hot (n k : Z) : list Z :=
  (λ i, if bool_decide (i = k) then 1 else 0) <$> seqZ 0 n.

Definition to_categorical (y num_classes : Z) : run (list Z) :=
  let n := if bool_decide (num_classes = 0) then y + 1 else num_classes in
  if bool_decide (n < 0) then Throw ValueError
  else if bool_decide (0 ≤ y < n) then Done (one_hot n y)
  else if bool_decide (- n ≤ y < 0) then Done (one_hot n (y + n))
  else Throw IndexError.

(** [word_vocab[word.lower()] if word.lower() in word_vocab else 1] *)
Definition word_id (lower : string → string) (word_vocab : gmap string Z)
    (word : string) : Z :=
  match word_vocab !! lower word with
  | Some v => v
  | None => 1
  end.

Definition len {A : Type} (l : list A) : Z := Z.of_nat (length l).

Definition max_length (sentences : list (list (string * string))) : Z :=
  foldl (λ m sentence, if bool_decide (len sentence > m)
                       then len sentence else m) 0 sentences.

(** [for word, tag in sentence], appending to [wids] and [tids]. *)
Fixpoint encode_words (lower : string → string)
    (word_vocab label_vocab : gmap string Z) (output_dim : Z)
    (sentence : list (string * string)) (wids : list Z)
    (tids : list (list Z)) : run (list Z * list (list Z)) :=
  match sentence with
  | [] => Done (wids, tids)
  | (word, tag) :: rest =>
      let val := word_id lower word_vocab word in
      label ← dict_get label_vocab tag;
      y ← to_categorical label output_dim;
      encode_words lower word_vocab label_vocab output_dim rest
        (wids ++ [val]) (tids ++ [y])
  end.

(** [for i in range(len(wids),max_length)], [n] iterations. *)
Fixpoint pad_words (output_dim : Z) (n : nat) (wids : list Z)
    (tids : list (list Z)) : run (list Z * list (list Z)) :=
  match n with
  | O => Done (wids, tids)
  | S n' =>
      y ← to_categorical 0 output_dim;
      pad_words output_dim n' (wids ++ [0]) (tids ++ [y])
  end.

(** The second [for sentence in sentences], the state being
    ([words_ids], [tags_ids], [sent_lengths]). *)
Fixpoint encode_sentences (lower : string → string)
    (word_vocab label_vocab : gmap string Z) (output_dim max_len : Z)
    (sentences : list (list (string * string)))
    (acc : list (list Z) * list (list (list Z)) * list Z)
  : run (list (list Z) * list (list (list Z)) * list Z) :=
  match sentences with
  | [] => Done acc
  | sentence :: rest =>
      let '(words_ids, tags_ids, sent_lengths) := acc in
      '(wids, tids) ← encode_words lower word_vocab label_vocab output_dim
                        sentence [] [];
      '(wids, tids) ← pad_words output_dim (Z.to_nat (max_len - len wids))
                        wids tids;
      encode_sentences lower word_vocab label_vocab output_dim max_len rest
        (words_ids ++ [wids], tags_ids ++ [tids],
         sent_lengths ++ [len sentence])
  end.

Definition get_word_ids (lower : string → string)
    (sentences : list (list (string * string)))
    (word_vocab label_vocab : gmap string Z)
  : run (list (list Z) * list (list (list Z)) * list Z) :=
  let output_dim := Z.of_nat (size label_vocab) + 1 in
  encode_sentences lower word_vocab label_vocab output_dim
    (max_length sentences) sentences ([], [], []).

(** ** [predict] *)

(** The word ids that [predict] gives to the network. *)
Definition predict_wids (lower : string → string)
    (word_vocab : gmap string Z) (text : list string) : list Z :=
  (λ t, match word_vocab !! lower t with
        | Some v => v
        | None => 0
        end) <$> text.

(** [predict]: the lines it prints.  [classes wids] is [y_classes[0]]. *)
Definition predict (lower : string → string) (word_vocab : gmap string Z)
    (classes : list Z → list Z) (rev_tags : gmap Z string) (text : string)
  : run (list string) :=
  let text := str_split " " text in
  let wids := predict_wids lower word_vocab text in
  predicted ← mapM (dict_get rev_tags) (classes wids);
  mret ((λ wt, wt.1 ++ String tab wt.2)%string <$> zip text predicted).

(** ** [F_score.on_epoch_end] *)

(** [for j in range(int(valS[i]))], [js] being the values of [j] left. *)
Fixpoint collect_words (reverse_tag_vocab : gmap Z string)
    (truth y_classes : list (list Z)) (i : nat) (js : list nat)
    (sent_golds sent_preds : list string)
  : run (list string * list string) :=
  match js with
  | [] => Done (sent_golds, sent_preds)
  | j :: js' =>
      g ← np_get2 truth i j;
      gold ← dict_get reverse_tag_vocab g;
      c ← np_get2 y_classes i j;
      pred ← dict_get reverse_tag_vocab c;
      collect_words reverse_tag_vocab truth y_classes i js'
        (sent_golds ++ [gold]) (sent_preds ++ [pred])
  end.

(** [for i in range(s)], the state being ([golds], [preds]). *)
Fixpoint collect_sentences (reverse_tag_vocab : gmap Z string)
    (truth y_classes : list (list Z)) (valS : list Z) (idx : list nat)
    (golds preds : list (list string))
  : run (list (list string) * list (list string)) :=
  match idx with
  | [] => Done (golds, preds)
  | i :: idx' =>
      n ← np_get valS i;
      '(sent_golds, sent_preds) ←
        collect_words reverse_tag_vocab truth y_classes i
          (seq 0 (Z.to_nat n)) [] [];
      collect_sentences reverse_tag_vocab truth y_classes valS idx'
        (golds ++ [sent_golds]) (preds ++ [sent_preds])
  end.

(** The tag sequences that the callback gives to [calculateF1];
    [y_classes] and [truth] are the two [argmax(axis=-1)]. *)
Definition collect (reverse_tag_vocab : gmap Z string)
    (y_classes truth : list (list Z)) (valS : list Z)
  : run (list (list string) * list (list string)) :=
  collect_sentences reverse_tag_vocab truth y_classes valS
    (seq 0 (length y_classes)) [] [].

(** [on_epoch_end]: the three numbers it prints. *)
Definition on_epoch_end {F : Type} `{PyNumber F}
    (reverse_tag_vocab : gmap Z string)
    (y_classes truth : list (list Z)) (valS : list Z) : run (F * F * F) :=
  '(golds, preds) ← collect reverse_tag_vocab y_classes truth valS;
  of_py (calculateF1 golds preds).

(** [a.argmax(axis=-1)] on the rows of an array whose last axis is not
    empty: the first index of the greatest number. *)
Fixpoint argmax_from (best_i : Z) (best : Z) (i : Z) (row : list Z) : Z :=
  match row with
  | [] => best_i
  | v :: rest =>
      if bool_decide (best < v) then argmax_from i v (i + 1) rest
      else argmax_from best_i best (i + 1) rest
  end.

Definition argmax (row : list Z) : Z :=
  match row with
  | [] => 0
  | v :: rest => argmax_from 0 v 1 rest
  end.

(** * Notions used to state the properties *)

(** ** The word loop, token by token *)

(** What a tag does to an open chunk.  This is a derived view of
    [parse_tag] and of the two tests on [BIO] in [word_body]; lemma
    [word_body_spec] proves that the code behaves as the view says. *)
Inductive marker : Type :=
| MBegin (c : string)   (* two parts, the first is ["B"] *)
| MOutside              (* not two parts, or the first of two is ["O"] *)
| MInside.              (* two parts, the first neither ["B"] nor ["O"] *)

Definition classify (tag : string) : marker :=
  match str_split "-" tag with
  | [p0; p1] =>
      if bool_decide (p0 = "B") then MBegin p1
      else if bool_decide (p0 = "O") then MOutside
      else MInside
  | _ => MOutside
  end.

Definition after_word (s_idx w_idx : Z) (tag : string) (st : locals)
  : locals :=
  let c := (parse_tag tag (cat st)).2 in
  match classify tag with
  | MBegin p1 =>
      {| ents := ents (close_chunk s_idx (w_idx - 1) st);
         start := Some w_idx; startCat := Some p1; cat := Some p1 |}
  | MOutside => set_cat c (close_chunk s_idx (w_idx - 1) st)
  | MInside => set_cat c st
  end.

(** [no_dash s]: the character ["-"] does not occur in [s]. *)
Fixpoint no_dash (s : string) : bool :=
  match s with
  | EmptyString => true
  | String c s' => if decide (c = "-"%char) then false else no_dash s'
  end.

(** [well_formed_tag tag]: the tag is [B-<category>] or [I-<category>],
    the category being any string that is not empty; it may itself hold
    a ["-"]. *)
Definition well_formed_tag (tag : string) : bool :=
  match tag with
  | String b (String d (String _ _)) =>
      (bool_decide (b = "B"%char) || bool_decide (b = "I"%char))
      && bool_decide (d = "-"%char)
  | _ => false
  end.

(** [begins tag]: the tag opens a chunk, that is, it has two parts and the
    first is ["B"]. *)
Definition begins (tag : string) : bool :=
  match classify tag with
  | MBegin _ => true
  | _ => false
  end.

(** ** Shape of the emitted chunks *)

Definition c_sent (x : chunk) : Z := x.1.1.1.
Definition c_start (x : chunk) : Z := x.1.1.2.
Definition c_end (x : chunk) : Z := x.1.2.
Definition c_cat (x : chunk) : option string := x.2.

(** [x] lies wholly before [y]: in an earlier sentence, or in the same
    sentence and ending before [y] starts. *)
Definition before (x y : chunk) : Prop :=
  c_sent x < c_sent y ∨ (c_sent x = c_sent y ∧ c_end x < c_start y).

(** [x] lies wholly before word [w] of sentence [s]. *)
Definition behind (s w : Z) (x : chunk) : Prop :=
  c_sent x < s ∨ (c_sent x = s ∧ c_end x < w).

(** [x] is a span of sentence [c_sent x] of the dataset, with a category. *)
Definition fits (sequences : list (list string)) (x : chunk) : Prop :=
  ∃ sent : list string,
    0 ≤ c_sent x ∧ sequences !! Z.to_nat (c_sent x) = Some sent ∧
    0 ≤ c_start x ∧ c_start x ≤ c_end x ∧ c_end x < Z.of_nat (length sent) ∧
    is_Some (c_cat x).

(** The first word not yet covered by an emitted or open chunk. *)
Definition frontier (w : Z) (st : locals) : Z :=
  match start st with Some b => b | None => w end.

(** Holds before word [w] of sentence [s_idx] is scanned. *)
Record word_inv (sequences : list (list string)) (s_idx w : Z)
    (st : locals) : Prop := {
  wi_sorted : StronglySorted before (ents st);
  wi_behind : Forall (behind s_idx (frontier w st)) (ents st);
  wi_fits : Forall (fits sequences) (ents st);
  wi_open : ∀ b, start st = Some b → 0 ≤ b < w ∧ is_Some (startCat st)
}.


(** Holds before sentence [s] is scanned. *)
Definition sent_inv (sequences : list (list string)) (s : Z) (st : locals)
  : Prop :=
  StronglySorted before (ents st) ∧
  Forall (behind s 0) (ents st) ∧
  Forall (fits sequences) (ents st).

(** Equality of two computed triples of canonical rationals. *)
Ltac qc_triple :=
  vm_compute; apply f_equal;
  apply f_equal2; [apply f_equal2|]; apply Qc_is_canon; reflexivity.

(** A run that has raised is not a run that returned. *)
Ltac throw_case :=
  simpl; let H := fresh "Hthrow" in intros H; discriminate H.


(** ** Notions for the data preparation *)

(** The (word, tag) pair of a line with two columns or more; [None] for a
    line that ends a sentence. *)
Definition parse_line (rstrip : string → string) (line : string)
  : option (string * string) :=
  match str_split tab (rstrip line) with
  | word :: tag :: _ => Some (word, tag)
  | _ => None
  end.

(** A line of two columns. *)
Definition tsv_line (word tag : string) : string :=
  (word ++ String tab tag)%string.


(** What [read_tsv] returns for the state ([sentences], [sentence]) in
    which the loop over the lines ends. *)
Definition flush
    (st : list (list (string * string)) * list (string * string))
  : list (list (string * string)) :=
  if bool_decide (0 < length st.2)%nat then st.1 ++ [st.2] else st.1.

(** The tags of a dataset, sentence by sentence. *)
Definition tags_of (sentences : list (list (string * string)))
  : list (list string) :=
  (λ sentence, sentence.*2) <$> sentences.

(** Every tag of the dataset is a key of [label_vocab], with an id that is
    an index of a row of [output_dim] classes. *)
Definition tags_known (label_vocab : gmap string Z)
    (sentences : list (list (string * string))) : Prop :=
  ∀ sentence word tag,
    sentence ∈ sentences → (word, tag) ∈ sentence →
    ∃ label, label_vocab !! tag = Some label ∧
             0 ≤ label < Z.of_nat (size label_vocab) + 1.

(** Every id that [label_vocab] gives to a tag of the dataset is an
    index of a row of [len(label_vocab)+1] classes. *)
Definition ids_valid (label_vocab : gmap string Z)
    (sentences : list (list (string * string))) : Prop :=
  ∀ sentence word tag label,
    sentence ∈ sentences → (word, tag) ∈ sentence →
    label_vocab !! tag = Some label →
    0 ≤ label < Z.of_nat (size label_vocab) + 1.

(** Every tag of the dataset is a key of [label_vocab]. *)
Definition all_known (label_vocab : gmap string Z)
    (sentences : list (list (string * string))) : Prop :=
  Forall (Forall (λ wt : string * string, is_Some (label_vocab !! wt.2)))
    sentences.

(** The rows that [get_word_ids] builds for a sentence, padded to [m]. *)
Definition encoded_words (lower : string → string)
    (word_vocab : gmap string Z) (m : Z) (sentence : list (string * string))
  : list Z :=
  (word_id lower word_vocab <$> sentence.*1)
  ++ replicate (Z.to_nat (m - len sentence)) 0.

Definition encoded_tags (label_vocab : gmap string Z) (d m : Z)
    (sentence : list (string * string)) : list (list Z) :=
  ((λ tag, one_hot d (default 0 (label_vocab !! tag))) <$> sentence.*2)
  ++ replicate (Z.to_nat (m - len sentence)) (one_hot d 0).

(** [tag] is the tag of a word of the dataset. *)
Definition occurs_in (tag : string)
    (sentences : list (list (string * string))) : Prop :=
  ∃ sentence word, sentence ∈ sentences ∧ (word, tag) ∈ sentence.

(** [tags] are the tags that [reverse_tag_vocab] gives for the first [n]
    classes of row [i] of the array [a]. *)
Definition decoded (reverse_tag_vocab : gmap Z string) (a : list (list Z))
    (i : nat) (n : Z) (tags : list string) : Prop :=
  Forall2 (λ j tag, ∃ c, np_get2 a i j = Done c ∧
                         reverse_tag_vocab !! c = Some tag)
    (seq 0 (Z.to_nat n)) tags.

Definition row_decoded (reverse_tag_vocab : gmap Z string)
    (a : list (list Z)) (valS : list Z) (i : nat) (tags : list string)
  : Prop :=
  ∃ n, valS !! i = Some n ∧ decoded reverse_tag_vocab a i n tags.

(** Cell [j] of row [i] of the array [a] holds one of the ids 1, ..., [n]
    of a vocabulary of [n] tags. *)
Definition cell_in_vocab (a : list (list Z)) (n : Z) (i j : nat) : Prop :=
  ∃ c, np_get2 a i j = Done c ∧ 1 ≤ c ≤ n.

(** * Properties *)

(** ** The word loop, token by token *)

Lemma close_chunk_set_cat s e c st :
  close_chunk s e (set_cat c st) = set_cat c (close_chunk s e st).
Proof. by destruct st as [l [b|] sc c0]. Qed.

Lemma word_body_spec s_idx w_idx tag st :
  word_body s_idx w_idx tag st = Ok (after_word s_idx w_idx tag st).
Proof.
  unfold word_body, after_word, classify, parse_tag.
  destruct (str_split "-" tag) as [|p0 [|p1 [|p2 ps]]]; simpl;
    rewrite ?close_chunk_set_cat; try done.
  repeat case_bool_decide; simplify_eq; simpl;
    rewrite ?close_chunk_set_cat; done.
Qed.

Lemma scan_words_total s_idx sent : ∀ w_idx st,
  ∃ st', scan_words s_idx w_idx sent st = Ok st'.
Proof.
  induction sent as [|tag rest IH]; intros w_idx st; simpl; [by eexists|].
  rewrite word_body_spec. apply IH.
Qed.

Lemma sentence_body_total s_idx sent st :
  ∃ st', sentence_body s_idx sent st = Ok st'.
Proof.
  unfold sentence_body.
  destruct (scan_words_total s_idx sent 0 (reset_start st)) as [st' ->].
  by eexists.
Qed.

Lemma scan_sentences_total sequences : ∀ s_idx st,
  ∃ st', scan_sentences s_idx sequences st = Ok st'.
Proof.
  induction sequences as [|sent rest IH]; intros s_idx st; simpl;
    [by eexists|].
  destruct (sentence_body_total s_idx sent st) as [st' ->]. apply IH.
Qed.

Lemma get_entities_total sequences :
  ∃ l, get_entities sequences = Ok l.
Proof.
  unfold get_entities.
  destruct (scan_sentences_total sequences 0 entry) as [st ->]. by eexists.
Qed.

(** [ents] is only ever appended to. *)
Lemma close_chunk_prefix s e st : ents st `prefix_of` ents (close_chunk s e st).
Proof.
  destruct st as [l [b|] sc c0]; simpl; [|done]. by apply prefix_app_r.
Qed.

Lemma after_word_prefix s w tag st :
  ents st `prefix_of` ents (after_word s w tag st).
Proof.
  unfold after_word. destruct (classify tag); simpl;
    auto using close_chunk_prefix.
Qed.

Lemma scan_words_prefix s sent : ∀ w st st',
  scan_words s w sent st = Ok st' → ents st `prefix_of` ents st'.
Proof.
  induction sent as [|tag rest IH]; intros w st st'; simpl.
  - by intros [= ->].
  - rewrite word_body_spec. intros H%IH.
    etrans; [apply after_word_prefix|done].
Qed.

Lemma sentence_body_prefix s sent st st' :
  sentence_body s sent st = Ok st' → ents st `prefix_of` ents st'.
Proof.
  unfold sentence_body.
  destruct (scan_words s 0 sent (reset_start st)) as [st1|] eqn:E; [|done].
  apply scan_words_prefix in E. simpl in E. intros [= <-].
  etrans; [exact E|]. destruct (start st1); simpl; [|done].
  by apply prefix_app_r.
Qed.

Lemma scan_sentences_prefix sequences : ∀ s st st',
  scan_sentences s sequences st = Ok st' → ents st `prefix_of` ents st'.
Proof.
  induction sequences as [|sent rest IH]; intros s st st'; simpl.
  - by intros [= ->].
  - destruct (sentence_body s sent st) as [st1|] eqn:E; [|done].
    intros H%IH. etrans; [by eapply sentence_body_prefix|done].
Qed.

(** ** Shape of the emitted chunks *)

Section word_invariant.
Variable sequences : list (list string).
Variable s_idx : Z.
Variable sent : list string.
Hypothesis s_idx_nonneg : 0 ≤ s_idx.
Hypothesis s_idx_sent : sequences !! Z.to_nat s_idx = Some sent.

Lemma behind_mono w w' x : w ≤ w' → behind s_idx w x → behind s_idx w' x.
Proof. unfold behind. lia. Qed.

Lemma word_inv_emit w e ws st b :
  word_inv sequences s_idx w st → start st = Some b → w - 1 ≤ e → e < ws →
  e < Z.of_nat (length sent) →
  StronglySorted before (ents st ++ [(s_idx, b, e, startCat st)]) ∧
  Forall (behind s_idx ws) (ents st ++ [(s_idx, b, e, startCat st)]) ∧
  Forall (fits sequences) (ents st ++ [(s_idx, b, e, startCat st)]).
Proof.
  intros [Hs Hb Hf Ho] Hst He Hws Hlen.
  destruct (Ho b Hst) as [Hbw Hc].
  unfold frontier in Hb. rewrite Hst in Hb.
  split_and!.
  - apply StronglySorted_app_2; [|done|repeat constructor].
    intros x y Hx ->%list_elem_of_singleton.
    rewrite Forall_forall in Hb. apply Hb in Hx. exact Hx.
  - apply Forall_app; split.
    + eapply Forall_impl; [exact Hb|]. intros x. apply behind_mono. lia.
    + apply Forall_singleton. right. unfold c_sent, c_end; simpl.
      split; [done|lia].
  - apply Forall_app; split; [done|]. apply Forall_singleton.
    exists sent. unfold c_sent, c_start, c_end, c_cat; simpl.
    split_and!; try done; lia.
Qed.

Lemma word_inv_step w tag st :
  0 ≤ w < Z.of_nat (length sent) → word_inv sequences s_idx w st →
  word_inv sequences s_idx (w + 1) (after_word s_idx w tag st).
Proof.
  intros Hw Hinv. pose proof Hinv as [Hs Hb Hf Ho].
  unfold after_word.
  destruct (classify tag) as [p1| |]; unfold close_chunk;
    destruct (start st) as [b|] eqn:Hst; simpl.
  - pose proof (word_inv_emit w (w - 1) w st b Hinv Hst
                  ltac:(lia) ltac:(lia) ltac:(lia)) as (?&?&?).
    constructor; simpl; try done.
    intros b' [= <-]. split; [lia|by eexists].
  - constructor; simpl; try done.
    + unfold frontier in *. by rewrite Hst in Hb.
    + intros b' [= <-]. split; [lia|by eexists].
  - pose proof (word_inv_emit w (w - 1) (w + 1) st b Hinv Hst
                  ltac:(lia) ltac:(lia) ltac:(lia)) as (?&?&?).
    constructor; simpl; done.
  - constructor; simpl; try done; [|by rewrite Hst].
    unfold frontier in *; simpl. rewrite Hst in *.
    eapply Forall_impl; [exact Hb|]. intros x. apply behind_mono. lia.
  - constructor; simpl; try done.
    + unfold frontier in *; simpl. by rewrite Hst in *.
    + rewrite Hst. intros b' [= <-]. destruct (Ho b eq_refl). split; [lia|done].
  - constructor; simpl; try done; [|by rewrite Hst].
    unfold frontier in *; simpl. rewrite Hst in *.
    eapply Forall_impl; [exact Hb|]. intros x. apply behind_mono. lia.
Qed.

Lemma word_inv_scan rest : ∀ w st st',
  0 ≤ w → w + Z.of_nat (length rest) = Z.of_nat (length sent) →
  word_inv sequences s_idx w st → scan_words s_idx w rest st = Ok st' →
  word_inv sequences s_idx (Z.of_nat (length sent)) st'.
Proof.
  induction rest as [|tag rest IH]; intros w st st' Hw Hlen Hinv; simpl in *.
  - intros [= <-]. by replace (Z.of_nat (length sent)) with w by lia.
  - rewrite word_body_spec. simpl. apply IH; try lia.
    apply word_inv_step; [lia|done].
Qed.
End word_invariant.

Lemma behind_next s w x : behind s w x → behind (s + 1) 0 x.
Proof. unfold behind. lia. Qed.

Lemma sentence_body_inv sequences k sent st st' :
  sequences !! k = Some sent →
  sent_inv sequences (Z.of_nat k) st →
  sentence_body (Z.of_nat k) sent st = Ok st' →
  sent_inv sequences (Z.of_nat k + 1) st'.
Proof.
  intros Hk (Hs & Hb & Hf). unfold sentence_body.
  destruct (scan_words (Z.of_nat k) 0 sent (reset_start st)) as [st1|] eqn:E;
    [|done].
  assert (Hk' : sequences !! Z.to_nat (Z.of_nat k) = Some sent)
    by by rewrite Nat2Z.id.
  assert (H0 : word_inv sequences (Z.of_nat k) 0 (reset_start st))
    by (constructor; simpl; done).
  pose proof (word_inv_scan sequences (Z.of_nat k) sent ltac:(lia) Hk'
                sent 0 (reset_start st) st1 ltac:(lia) ltac:(lia) H0 E)
    as Hinv.
  intros [= <-]. destruct (start st1) as [b|] eqn:Hst.
  - pose proof (word_inv_emit sequences (Z.of_nat k) sent ltac:(lia) Hk'
                  _ (Z.of_nat (length sent) - 1) (Z.of_nat (length sent))
                  st1 b Hinv Hst ltac:(lia) ltac:(lia) ltac:(lia))
      as (H&H1&H2).
    split_and!; simpl; try done.
    eapply Forall_impl; [exact H1|]. intros x. apply behind_next.
  - destruct Hinv as [Hs1 Hb1 Hf1 _]. split_and!; try done.
    eapply Forall_impl; [exact Hb1|]. intros x. apply behind_next.
Qed.

Lemma scan_sentences_inv sequences rest : ∀ pre st st',
  sequences = pre ++ rest →
  sent_inv sequences (Z.of_nat (length pre)) st →
  scan_sentences (Z.of_nat (length pre)) rest st = Ok st' →
  StronglySorted before (ents st') ∧ Forall (fits sequences) (ents st').
Proof.
  induction rest as [|sent rest IH]; intros pre st st' Heq Hinv; simpl.
  - intros [= <-]. destruct Hinv as (?&?&?). done.
  - destruct (sentence_body (Z.of_nat (length pre)) sent st) as [st1|] eqn:E;
      [|done].
    simpl. intros Hrest.
    apply (IH (pre ++ [sent]) st1 st').
    + by rewrite <- app_assoc.
    + rewrite length_app, Nat2Z.inj_add. simpl.
      eapply sentence_body_inv; [|done|done].
      subst sequences. by rewrite list_lookup_middle.
    + by rewrite length_app, Nat2Z.inj_add.
Qed.

Lemma get_entities_shape sequences l :
  get_entities sequences = Ok l →
  StronglySorted before l ∧ Forall (fits sequences) l.
Proof.
  unfold get_entities.
  destruct (scan_sentences 0 sequences entry) as [st|] eqn:E; [|done].
  intros [= <-].
  apply (scan_sentences_inv sequences sequences [] entry st); try done.
  repeat split; simpl; constructor.
Qed.

Lemma fits_not_before sequences x : fits sequences x → ¬ before x x.
Proof. intros (sent & ? & ? & ? & ? & ? & ?). unfold before. lia. Qed.

Lemma sorted_fits_NoDup sequences (l : list chunk) :
  StronglySorted before l → Forall (fits sequences) l → NoDup l.
Proof.
  induction 1 as [|x l Hl IH Hx]; intros Hf; [constructor|].
  apply Forall_cons in Hf as [Hfx Hfl].
  constructor; [|by apply IH].
  intros Hin. rewrite Forall_forall in Hx.
  by apply (fits_not_before sequences x), Hx.
Qed.

(** ** Arithmetic of the exact instance *)

Lemma of_int_Qc_zero (z : Z) : of_int (F:=Qc) z = Q2Qc 0 → z = 0.
Proof.
  simpl. rewrite Q2Qc_eq_iff. unfold Qeq; simpl. lia.
Qed.

Lemma Qc_len_nonzero (m : Z) :
  m > 0 → num_is_zero (F:=Qc) (of_int m) = false.
Proof.
  intros Hm. apply bool_decide_eq_false_2. intros H%of_int_Qc_zero. lia.
Qed.

Lemma Qc_pos_nonzero (x : Qc) :
  num_gt x (of_int 0) = true → num_is_zero x = false.
Proof.
  intros H%bool_decide_eq_true_1. apply bool_decide_eq_false_2.
  intros ->. by apply (Qclt_not_eq (Q2Qc 0) (Q2Qc 0)).
Qed.

Lemma Qc_self_div (n : Z) : n > 0 → (of_int n / of_int n)%Qc = 1%Qc.
Proof.
  intros Hn. apply Qcmult_inv_r. intros H%of_int_Qc_zero. lia.
Qed.

(** ** Arithmetic of the binary64 instance *)

Lemma digits2_pos_lower (p : positive) :
  2 ^ (Z.pos (digits2_pos p) - 1) ≤ Z.pos p.
Proof.
  induction p as [p IH|p IH|]; simpl digits2_pos; [| |simpl; lia];
    rewrite Pos2Z.inj_succ;
    replace (Z.succ (Z.pos (digits2_pos p)) - 1)
      with (Z.succ (Z.pos (digits2_pos p) - 1)) by lia;
    rewrite Z.pow_succ_r by lia; lia.
Qed.

Lemma digits2_pos_iter_xO (k p : positive) :
  digits2_pos (Pos.iter xO p k) = (digits2_pos p + k)%positive.
Proof.
  induction k as [|k IH] using Pos.peano_ind.
  - simpl. lia.
  - rewrite Pos.iter_succ. simpl. rewrite IH. lia.
Qed.

(** A mantissa of 53 bits with an exponent in range is left as it is. *)
Lemma binary_round_aux_exact (mz : positive) (ez : Z) :
  Z.pos (digits2_pos mz) = 53 → -1074 ≤ ez ≤ 971 →
  binary_round_aux prec emax false (Z.pos mz) ez loc_Exact
  = S754_finite false mz ez.
Proof.
  intros Hd He. unfold binary_round_aux, shr_fexp, fexp, Zdigits2.
  rewrite Hd.
  replace (Z.max (53 + ez - prec) emin - ez) with 0
    by (unfold prec, emax, SpecFloat.emin; lia).
  cbn [shr shr_record_of_loc shr_m loc_of_shr_record round_nearest_even].
  unfold Zdigits2. rewrite Hd.
  replace (Z.max (53 + ez - prec) emin - ez) with 0
    by (unfold prec, emax, SpecFloat.emin; lia).
  cbn [shr shr_record_of_loc shr_m].
  replace (ez <=? emax - prec) with true; [reflexivity|].
  symmetry. apply Z.leb_le. unfold emax, prec. lia.
Qed.

Lemma binary_normalize_small (p : positive) :
  Z.pos p < 2 ^ 53 →
  ∃ m e, binary_normalize prec emax (Z.pos p) 0 false = S754_finite false m e.
Proof.
  intros Hp. unfold binary_normalize, binary_round.
  pose proof (digits2_pos_lower p) as Hlow.
  assert (Hd : Z.pos (digits2_pos p) ≤ 53).
  { destruct (Z_le_gt_dec (Z.pos (digits2_pos p)) 53) as [|Hgt]; [done|].
    exfalso.
    assert (2 ^ 53 ≤ 2 ^ (Z.pos (digits2_pos p) - 1))
      by (apply Z.pow_le_mono_r; lia).
    lia. }
  unfold fexp.
  replace (Z.max (Z.pos (digits2_pos p) + 0 - prec) emin)
    with (Z.pos (digits2_pos p) - 53)
    by (unfold prec, emax, SpecFloat.emin; lia).
  unfold shl_align. rewrite Z.sub_0_r.
  destruct (Z.pos (digits2_pos p) - 53) as [|k|k] eqn:Hk; try lia.
  - rewrite binary_round_aux_exact; [eauto|lia|lia].
  - rewrite binary_round_aux_exact; [eauto| |lia].
    rewrite digits2_pos_iter_xO. lia.
Qed.

(** A finite, non-zero binary64 number divided by itself is 1. *)
Lemma SF64div_self (m : positive) (e : Z) :
  SF64div (S754_finite false m e) (S754_finite false m e)
  = S754_finite false 4503599627370496 (-52).
Proof.
  unfold SF64div, SFdiv, SFdiv_core_binary.
  rewrite !Z.sub_diag.
  change (Z.min (fexp prec emax 0) 0) with (-53).
  change (0 - -53) with 53.
  cbv iota beta.
  replace (Z.div_eucl (Z.shiftl (Z.pos m) 53) (Z.pos m)) with (2 ^ 53, 0).
  2:{ rewrite Z.shiftl_mul_pow2 by lia.
      pose proof (Z.div_eucl_eq (Z.pos m * 2 ^ 53) (Z.pos m) ltac:(lia)) as H.
      pose proof (Z.mod_pos_bound (Z.pos m * 2 ^ 53) (Z.pos m) ltac:(lia))
        as Hb.
      unfold Z.modulo, Z.div in *.
      destruct (Z.div_eucl (Z.pos m * 2 ^ 53) (Z.pos m)) as [q r].
      assert (q = 2 ^ 53) by nia. subst q. f_equal. lia. }
  assert (Hloc : new_location (Z.pos m) 0 = loc_Exact).
  { unfold new_location, new_location_even, new_location_odd.
    by destruct (Z.even (Z.pos m)). }
  rewrite Hloc. vm_compute. reflexivity.
Qed.

Lemma of_int_float_finite (n : Z) :
  0 < n < 2 ^ 53 →
  ∃ m e, Prim2SF (of_int (F:=float) n) = S754_finite false m e.
Proof.
  intros Hn. simpl. rewrite of_uint63_spec, of_Z_spec.
  rewrite Z.mod_small by (change wB with (2 ^ 63); lia).
  destruct n as [|p|p]; try lia.
  apply binary_normalize_small. lia.
Qed.

Lemma float_len_nonzero (m : Z) :
  m > 0 → m < 2 ^ 53 → num_is_zero (F:=float) (of_int m) = false.
Proof.
  intros H0 Hm. destruct (of_int_float_finite m ltac:(lia)) as (x & e & H).
  unfold num_is_zero; simpl. rewrite FloatAxioms.eqb_spec.
  simpl in H. by rewrite H.
Qed.

Lemma float_pos_nonzero (x : float) :
  num_gt x (of_int 0) = true → num_is_zero x = false.
Proof.
  unfold num_gt, num_is_zero; simpl.
  change (of_uint63 (of_Z 0)) with PrimFloat.zero.
  rewrite FloatAxioms.ltb_spec, FloatAxioms.eqb_spec.
  change (Prim2SF PrimFloat.zero) with (S754_zero false).
  by destruct (Prim2SF x) as [[|]|[|]| |[|] m e].
Qed.

Lemma float_self_div (n : Z) :
  0 < n < 2 ^ 53 →
  PrimFloat.div (of_int (F:=float) n) (of_int (F:=float) n) = 1%float.
Proof.
  intros Hn. destruct (of_int_float_finite n Hn) as (m & e & H).
  apply Prim2SF_inj. rewrite FloatAxioms.div_spec, H, SF64div_self.
  reflexivity.
Qed.

(** ** The scorer *)

(** C1.  The literal scenario of the docstring: the two chunk lists and
    chunk sets are the expected ones, they share exactly one chunk, and the
    metrics are 1/3, 1/2 and 2/5, as exact rationals and as the binary64
    quotients that Python computes. *)
Theorem literal_scenario :
  get_entities gold_example
    = Ok [(0, 0, 1, Some "PER"); (0, 6, 6, Some "ORG")] ∧
  get_entities predicted_example
    = Ok [(0, 0, 0, Some "PER"); (0, 4, 4, Some "PER"); (0, 6, 6, Some "ORG")] ∧
  extract gold_example
    = Ok {[ (0, 0, 1, Some "PER"); (0, 6, 6, Some "ORG") ]} ∧
  extract predicted_example
    = Ok {[ (0, 0, 0, Some "PER"); (0, 4, 4, Some "PER");
            (0, 6, 6, Some "ORG") ]} ∧
  ({[ (0, 0, 1, Some "PER"); (0, 6, 6, Some "ORG") ]}
     ∩ {[ (0, 0, 0, Some "PER"); (0, 4, 4, Some "PER");
          (0, 6, 6, Some "ORG") ]} : gset chunk)
    = {[ (0, 6, 6, Some "ORG") ]} ∧
  size ({[ (0, 0, 1, Some "PER"); (0, 6, 6, Some "ORG") ]}
          ∩ {[ (0, 0, 0, Some "PER"); (0, 4, 4, Some "PER");
               (0, 6, 6, Some "ORG") ]} : gset chunk) = 1%nat ∧
  calculateF1 (F:=Qc) gold_example predicted_example
    = Ok (Q2Qc (1 # 3), Q2Qc (1 # 2), Q2Qc (2 # 5)) ∧
  calculateF1 (F:=float) gold_example predicted_example
    = Ok (1 / 3, 1 / 2, 2 / 5)%float.
Proof.
  split_and!; try (vm_compute; reflexivity).
  qc_triple.
Qed.

Lemma bind_Ok {A B : Type} (f : A → py B) (a : A) : Ok a ≫= f = f a.
Proof. reflexivity. Qed.

(** [calculateF1] with its guards resolved, for any instance in which a
    positive [len] (within [ok_len]) is not zero and a number greater than
    zero is not zero. *)
Section score_unfolded.
Context {F : Type} `{PyNumber F}.
Variable ok_len : Z → Prop.
Hypothesis len_nonzero :
  ∀ m : Z, m > 0 → ok_len m → num_is_zero (of_int m) = false.
Hypothesis pos_nonzero :
  ∀ x : F, num_gt x (of_int 0) = true → num_is_zero x = false.

Lemma guarded_ratio (A B : gset chunk) :
  ok_len (len_set B) →
  (if bool_decide (len_set B > 0)
   then num_div (of_int (len_set A)) (of_int (len_set B))
   else mret (of_int 0))
  = Ok (if decide (0 < size B)%nat
        then num_quot (of_int (len_set A)) (of_int (len_set B))
        else of_int 0).
Proof.
  intros Hok. destruct (decide (0 < size B)%nat).
  - rewrite bool_decide_eq_true_2 by (unfold len_set; lia).
    unfold num_div. rewrite len_nonzero; [done| |done]. unfold len_set. lia.
  - rewrite bool_decide_eq_false_2 by (unfold len_set; lia). done.
Qed.

Lemma guarded_harmonic (p r : F) :
  (if num_gt (num_add p r) (of_int 0)
   then num_div (num_mul (num_mul (of_int 2) p) r) (num_add p r)
   else mret (of_int 0))
  = Ok (if num_gt (num_add p r) (of_int 0)
        then num_quot (num_mul (num_mul (of_int 2) p) r) (num_add p r)
        else of_int 0).
Proof.
  destruct (num_gt (num_add p r) (of_int 0)) eqn:Hgt; [|done].
  unfold num_div. by rewrite (pos_nonzero _ Hgt).
Qed.

Lemma calculateF1_unfold (gold predicted : list (list string))
    (gl pl : list chunk) :
  get_entities gold = Ok gl → get_entities predicted = Ok pl →
  let G : gset chunk := list_to_set gl in
  let P : gset chunk := list_to_set pl in
  ok_len (len_set G) → ok_len (len_set P) →
  let precision : F :=
    if decide (0 < size P)%nat
    then num_quot (of_int (len_set (G ∩ P))) (of_int (len_set P))
    else of_int 0 in
  let recall : F :=
    if decide (0 < size G)%nat
    then num_quot (of_int (len_set (G ∩ P))) (of_int (len_set G))
    else of_int 0 in
  let F1 : F :=
    if num_gt (num_add precision recall) (of_int 0)
    then num_quot (num_mul (num_mul (of_int 2) precision) recall)
                  (num_add precision recall)
    else of_int 0 in
  calculateF1 gold predicted = Ok (precision, recall, F1).
Proof.
  intros Hg Hp G P HG HP precision recall F1.
  unfold calculateF1.
  rewrite Hg, bind_Ok, Hp, bind_Ok. cbv zeta. fold G P.
  rewrite !guarded_ratio, bind_Ok, bind_Ok by done.
  fold precision recall. rewrite guarded_harmonic, bind_Ok. done.
Qed.
End score_unfolded.

(** C2.  The metrics are the guarded quotients of the chunk-set sizes:
    precision is |G ∩ P| / |P| when P is not empty, recall is |G ∩ P| / |G|
    when G is not empty, F1 is 2*precision*recall/(precision+recall) when
    that sum is positive, and each is 0 when its guard fails; the call
    always returns, it never raises.  This holds with exact rationals, and
    in binary64 when the two sets have less than 2^53 chunks. *)
Theorem score_formulas (gold predicted : list (list string)) :
  ∃ G P : gset chunk,
    extract gold = Ok G ∧ extract predicted = Ok P ∧
    (∃ precision recall F1 : Qc,
       calculateF1 gold predicted = Ok (precision, recall, F1) ∧
       precision =
         (if decide (0 < size P)%nat
          then of_int (len_set (G ∩ P)) / of_int (len_set P) else 0)%Qc ∧
       recall =
         (if decide (0 < size G)%nat
          then of_int (len_set (G ∩ P)) / of_int (len_set G) else 0)%Qc ∧
       F1 =
         (if bool_decide (0 < precision + recall)%Qc
          then 2 * precision * recall / (precision + recall) else 0)%Qc) ∧
    (len_set G < 2 ^ 53 → len_set P < 2 ^ 53 →
     ∃ precision recall F1 : float,
       calculateF1 gold predicted = Ok (precision, recall, F1) ∧
       precision =
         (if decide (0 < size P)%nat
          then of_int (len_set (G ∩ P)) / of_int (len_set P) else 0)%float ∧
       recall =
         (if decide (0 < size G)%nat
          then of_int (len_set (G ∩ P)) / of_int (len_set G) else 0)%float ∧
       F1 =
         (if 0 <? precision + recall
          then 2 * precision * recall / (precision + recall) else 0)%float).
Proof.
  destruct (get_entities_total gold) as [gl Hg].
  destruct (get_entities_total predicted) as [pl Hp].
  exists (list_to_set gl), (list_to_set pl).
  unfold extract. rewrite Hg, Hp, !bind_Ok.
  split; [done|]. split; [done|]. split.
  - pose proof (calculateF1_unfold (F:=Qc) (λ _, True)
                  (λ m Hm _, Qc_len_nonzero m Hm) Qc_pos_nonzero
                  gold predicted gl pl Hg Hp I I) as H.
    cbv zeta in H. eexists _, _, _. split; [exact H|]. done.
  - intros HG HP.
    pose proof (calculateF1_unfold (F:=float) (λ m, m < 2 ^ 53)
                  float_len_nonzero float_pos_nonzero
                  gold predicted gl pl Hg Hp HG HP) as H.
    cbv zeta in H. eexists _, _, _. split; [exact H|]. done.
Qed.

(** C6.  Scoring a dataset against itself gives (1, 1, 1) as soon as the
    dataset has a chunk: with exact rationals, and in binary64 when the
    dataset has less than 2^53 chunks. *)
Theorem score_identical (sequences : list (list string)) (G : gset chunk) :
  extract sequences = Ok G → G ≠ ∅ →
  calculateF1 (F:=Qc) sequences sequences = Ok (1, 1, 1)%Qc ∧
  (len_set G < 2 ^ 53 →
   calculateF1 (F:=float) sequences sequences = Ok (1, 1, 1)%float).
Proof.
  unfold extract. intros HG Hne.
  destruct (get_entities sequences) as [l|] eqn:Hl; [|done].
  rewrite bind_Ok in HG. injection HG as <-.
  assert (Hsz : (0 < size (list_to_set l : gset chunk))%nat).
  { enough (size (list_to_set l : gset chunk) ≠ 0%nat) by lia.
    apply size_non_empty_iff. by intros ?%leibniz_equiv. }
  split.
  - rewrite (calculateF1_unfold (F:=Qc) (λ _, True)
               (λ m Hm _, Qc_len_nonzero m Hm) Qc_pos_nonzero
               sequences sequences l l Hl Hl I I).
    cbv zeta. rewrite (idemp_L (∩) (list_to_set l : gset chunk)).
    destruct (decide (0 < size (list_to_set l : gset chunk))%nat); [|lia].
    change (num_quot (F:=Qc)) with Qcdiv.
    rewrite Qc_self_div by (unfold len_set; lia).
    by apply f_equal, f_equal2; [apply f_equal2|]; try apply Qc_is_canon.
  - intros Hlt.
    rewrite (calculateF1_unfold (F:=float) (λ m, m < 2 ^ 53)
               float_len_nonzero float_pos_nonzero
               sequences sequences l l Hl Hl Hlt Hlt).
    cbv zeta. rewrite (idemp_L (∩) (list_to_set l : gset chunk)).
    destruct (decide (0 < size (list_to_set l : gset chunk))%nat); [|lia].
    change (num_quot (F:=float)) with PrimFloat.div.
    rewrite float_self_div by (unfold len_set in *; lia).
    reflexivity.
Qed.

Lemma score_identical_witness :
  calculateF1 (F:=Qc) gold_example gold_example = Ok (1, 1, 1)%Qc ∧
  calculateF1 (F:=float) gold_example gold_example = Ok (1, 1, 1)%float.
Proof.
  assert (HG : extract gold_example
               = Ok ({[ (0, 0, 1, Some "PER"); (0, 6, 6, Some "ORG") ]}
                     : gset chunk))
    by (vm_compute; reflexivity).
  destruct (score_identical gold_example _ HG) as [Hexact Hbinary].
  - vm_compute. discriminate.
  - split; [exact Hexact|]. apply Hbinary. vm_compute. reflexivity.
Defined.

(** The degenerate cases of the specification, evaluated in both
    instances. *)
Example degenerate_scores :
  calculateF1 (F:=Qc) [] [] = Ok (0, 0, 0)%Qc ∧
  calculateF1 (F:=Qc) [["O"; "O"; "O"]] [["O"; "O"; "O"]] = Ok (0, 0, 0)%Qc ∧
  calculateF1 (F:=float) [] [] = Ok (0, 0, 0)%float ∧
  calculateF1 (F:=float) [["O"; "O"; "O"]] [["O"; "O"; "O"]]
    = Ok (0, 0, 0)%float.
Proof. split_and!; vm_compute; reflexivity. Qed.

(** C5 (as amended).  [calculateF1] has no alignment check: whatever the
    two datasets are, aligned or not, it returns a triple and raises
    nothing (with exact rationals, and in binary64 when the two chunk sets
    have less than 2^53 chunks). *)
Theorem score_total (gold predicted : list (list string)) :
  (∃ precision recall F1 : Qc,
     calculateF1 gold predicted = Ok (precision, recall, F1)) ∧
  ∃ G P : gset chunk,
    extract gold = Ok G ∧ extract predicted = Ok P ∧
    (len_set G < 2 ^ 53 → len_set P < 2 ^ 53 →
     ∃ precision recall F1 : float,
       calculateF1 gold predicted = Ok (precision, recall, F1)).
Proof.
  destruct (get_entities_total gold) as [gl Hg].
  destruct (get_entities_total predicted) as [pl Hp].
  split.
  - pose proof (calculateF1_unfold (F:=Qc) (λ _, True)
                  (λ m Hm _, Qc_len_nonzero m Hm) Qc_pos_nonzero
                  gold predicted gl pl Hg Hp I I) as H.
    cbv zeta in H. eexists _, _, _. exact H.
  - exists (list_to_set gl), (list_to_set pl).
    unfold extract. rewrite Hg, Hp, !bind_Ok.
    split; [done|]. split; [done|]. intros HG HP.
    pose proof (calculateF1_unfold (F:=float) (λ m, m < 2 ^ 53)
                  float_len_nonzero float_pos_nonzero
                  gold predicted gl pl Hg Hp HG HP) as H.
    cbv zeta in H. eexists _, _, _. exact H.
Qed.

(** C5 as stated fails: with one gold sentence and no predicted sentence,
    and with a sentence of two gold tags against one predicted tag, a
    triple is returned. *)
Lemma misaligned_counterexample :
  length [["B-PER"]] ≠ length ([] : list (list string)) ∧
  calculateF1 (F:=Qc) [["B-PER"]] [] = Ok (0, 0, 0)%Qc ∧
  calculateF1 (F:=float) [["B-PER"]] [] = Ok (0, 0, 0)%float ∧
  length ["B-PER"; "O"] ≠ length ["B-PER"] ∧
  calculateF1 (F:=Qc) [["B-PER"; "O"]] [["B-PER"]] = Ok (1, 1, 1)%Qc ∧
  calculateF1 (F:=float) [["B-PER"; "O"]] [["B-PER"]] = Ok (1, 1, 1)%float.
Proof.
  split_and!; first [done | qc_triple | vm_compute; reflexivity].
Qed.

(** ** Tags *)

Lemma str_split_no_dash (c : string) :
  no_dash c = true → str_split "-" c = [c].
Proof.
  induction c as [|a c IH]; simpl; [done|].
  destruct (decide (a = "-"%char)); [done|].
  intros H. by rewrite (IH H).
Qed.

Lemma classify_begin (c : string) :
  no_dash c = true → classify ("B-" ++ c)%string = MBegin c.
Proof.
  intros H. unfold classify.
  change ("B-" ++ c)%string with (String "B" (String "-" c)).
  simpl. by rewrite (str_split_no_dash c H).
Qed.

(** A [B-] tag whose category has no hyphen opens a chunk of that category
    at the current word, closing the chunk that was open. *)
Lemma begin_tag_opens_chunk (c : string) (s_idx w_idx : Z) (st : locals) :
  no_dash c = true →
  ∃ st', word_body s_idx w_idx ("B-" ++ c)%string st = Ok st' ∧
         ents st' = ents (close_chunk s_idx (w_idx - 1) st) ∧
         start st' = Some w_idx ∧ startCat st' = Some c.
Proof.
  intros H. rewrite word_body_spec. eexists; split; [done|].
  unfold after_word. by rewrite (classify_begin c H).
Qed.

Lemma classify_outside (tag : string) (c : option string) :
  (parse_tag tag c).1 = "O" → classify tag = MOutside.
Proof.
  unfold parse_tag, classify.
  destruct (str_split "-" tag) as [|p0 [|p1 [|p2 ps]]]; simpl; try done.
  by intros ->.
Qed.

Lemma well_formed_tag_spec (tag : string) :
  well_formed_tag tag = true
  ↔ ∃ c : string, c ≠ "" ∧ (tag = "B-" ++ c ∨ tag = "I-" ++ c)%string.
Proof.
  split.
  - destruct tag as [|b [|d [|a c]]]; simpl; try done.
    intros [Hb ->%bool_decide_eq_true_1]%andb_prop.
    exists (String a c). split; [done|].
    apply orb_prop in Hb as [->%bool_decide_eq_true_1
                            | ->%bool_decide_eq_true_1]; [by left|by right].
  - intros (c & Hc & [-> | ->]); by destruct c.
Qed.

Lemma one_part_or_outside (tag : string) (c : option string) :
  (∀ p0 p1 : string, str_split "-" tag = [p0; p1] → p0 = "O") →
  (parse_tag tag c).1 = "O".
Proof.
  intros Hparts. unfold parse_tag.
  destruct (str_split "-" tag) as [|p0 [|p1 [|p2 ps]]]; simpl; try done.
  by apply (Hparts p0 p1).
Qed.

(** C3 (as amended).  A tag that is neither ["O"] nor [B-<category>] or
    [I-<category>], and that is not made of exactly two parts around one
    ["-"] with a first part other than ["O"], raises nothing and acts on
    the chunks as the tag ["O"] does: the chunk that is open, if any, is
    closed at the previous word, and no chunk is open afterwards.  Such
    are ["X"], with no hyphen, and ["Q-Z-W"]; ["Q-Z"] is not, and neither
    is ["B-geo-loc"], which is a [B-<category>]. *)
Theorem malformed_tag_like_outside (tag : string) (s_idx w_idx : Z)
    (st : locals) :
  tag ≠ "O" → well_formed_tag tag = false →
  (∀ p0 p1 : string, str_split "-" tag = [p0; p1] → p0 = "O") →
  ∃ st' stO,
    word_body s_idx w_idx tag st = Ok st' ∧
    word_body s_idx w_idx "O" st = Ok stO ∧
    ents st' = ents stO ∧ start st' = start stO ∧
    startCat st' = startCat stO ∧
    start st' = None ∧
    ents st' = match start st with
               | Some b => ents st ++ [(s_idx, b, w_idx - 1, startCat st)]
               | None => ents st
               end.
Proof.
  intros _ _ Hparts. rewrite !word_body_spec. eexists _, _.
  split; [done|]. split; [done|].
  unfold after_word.
  rewrite (classify_outside tag (cat st) (one_part_or_outside tag _ Hparts)).
  change (classify "O") with MOutside.
  by destruct st as [l [b|] sc c].
Qed.

Lemma malformed_tag_witness :
  ∃ st' stO,
    word_body 0 1 "X" (Locals [] (Some 0) (Some "PER") (Some "PER")) = Ok st' ∧
    word_body 0 1 "O" (Locals [] (Some 0) (Some "PER") (Some "PER")) = Ok stO ∧
    ents st' = ents stO ∧ start st' = start stO ∧
    startCat st' = startCat stO ∧
    start st' = None ∧
    ents st' = [(0, 0, 1 - 1, Some "PER")].
Proof.
  apply (malformed_tag_like_outside "X" 0 1
           (Locals [] (Some 0) (Some "PER") (Some "PER"))).
  - done.
  - reflexivity.
  - intros p0 p1 Hsplit. discriminate Hsplit.
Defined.

(** The amendment leaves out nothing that it could keep: a tag of two
    parts whose first is not ["O"] never acts as ["O"] on an open chunk.
    After ["O"] no chunk is open; after such a tag one is. *)
Lemma two_part_tag_not_outside (tag p0 p1 : string) (s_idx w_idx b : Z)
    (st : locals) :
  str_split "-" tag = [p0; p1] → p0 ≠ "O" → start st = Some b →
  ∃ st' stO,
    word_body s_idx w_idx tag st = Ok st' ∧
    word_body s_idx w_idx "O" st = Ok stO ∧
    start stO = None ∧ is_Some (start st').
Proof.
  intros Hsplit Hp0 Hb. rewrite !word_body_spec. eexists _, _.
  split; [done|]. split; [done|].
  unfold after_word, classify. rewrite Hsplit.
  change (str_split "-" "O") with ["O"].
  destruct st as [l o sc c]. simpl in Hb. subst o. simpl.
  split; [done|].
  case_bool_decide; [by eexists|].
  case_bool_decide; [done|]. by eexists.
Qed.

(** C3 as stated fails: ["Q-Z"] is neither ["O"] nor a [B-]/[I-] tag, yet
    it splits into two parts whose first is neither ["B"] nor ["O"], so it
    leaves the open chunk open where ["O"] closes it. *)
Lemma two_part_tag_counterexample :
  "Q-Z" ≠ "O" ∧
  (∀ c : string, "Q-Z" ≠ ("B-" ++ c)%string) ∧
  (∀ c : string, "Q-Z" ≠ ("I-" ++ c)%string) ∧
  get_entities [["B-PER"; "Q-Z"; "O"]] = Ok [(0, 0, 1, Some "PER")] ∧
  get_entities [["B-PER"; "O"; "O"]] = Ok [(0, 0, 0, Some "PER")].
Proof. split_and!; done. Qed.

(** C4 fails on the code for a category with a hyphen: ["B-geo-loc"]
    splits into three parts, is handled as ["O"], and its chunk is never
    emitted, while the same span tagged with a category without hyphen
    is. *)
Theorem hyphenated_category_dropped :
  str_split "-" "B-geo-loc" = ["B"; "geo"; "loc"] ∧
  word_body 0 0 "B-geo-loc" entry = Ok entry ∧
  get_entities [["B-geo-loc"; "I-geo-loc"; "O"]] = Ok [] ∧
  get_entities [["B-geo"; "I-geo"; "O"]] = Ok [(0, 0, 1, Some "geo")].
Proof. split_and!; done. Qed.

Lemma classify_inside (tag X : string) :
  str_split "-" tag = ["I"; X] → classify tag = MInside.
Proof. unfold classify. by intros ->. Qed.

(** C8.  A tag that parses into the marker ["I"] and a category [X] closes
    nothing and opens nothing: [ents], [start] and [startCat] are what they
    were, whatever category the open chunk has; so a chunk opened by [B-Y]
    and followed by that tag is emitted with category [Y] over both words,
    and the tag alone emits nothing. *)
Theorem inside_tag_keeps_state (tag X : string) :
  str_split "-" tag = ["I"; X] →
  (∀ (s_idx w_idx : Z) (st : locals),
     ∃ st', word_body s_idx w_idx tag st = Ok st' ∧
            ents st' = ents st ∧ start st' = start st ∧
            startCat st' = startCat st) ∧
  (∀ Y : string, no_dash Y = true →
     get_entities [[("B-" ++ Y)%string; tag]] = Ok [(0, 0, 1, Some Y)]) ∧
  get_entities [[tag]] = Ok [].
Proof.
  intros Hsplit. pose proof (classify_inside tag X Hsplit) as Hc.
  split_and!.
  - intros s_idx w_idx st. rewrite word_body_spec. eexists; split; [done|].
    unfold after_word. by rewrite Hc.
  - intros Y HY. unfold get_entities, scan_sentences, sentence_body, scan_words.
    rewrite word_body_spec, bind_Ok, word_body_spec, !bind_Ok.
    unfold after_word. rewrite (classify_begin Y HY). simpl. by rewrite Hc.
  - unfold get_entities, scan_sentences, sentence_body, scan_words.
    rewrite word_body_spec, !bind_Ok. unfold after_word. by rewrite Hc.
Qed.

Lemma inside_tag_witness :
  (∀ (s_idx w_idx : Z) (st : locals),
     ∃ st', word_body s_idx w_idx "I-ORG" st = Ok st' ∧
            ents st' = ents st ∧ start st' = start st ∧
            startCat st' = startCat st) ∧
  (∀ Y : string, no_dash Y = true →
     get_entities [[("B-" ++ Y)%string; "I-ORG"]] = Ok [(0, 0, 1, Some Y)]) ∧
  get_entities [["I-ORG"]] = Ok [].
Proof. apply (inside_tag_keeps_state "I-ORG" "ORG"). reflexivity. Defined.

(** ** End of sentence *)

(** Whether a chunk is open after a word depends on the tag and on whether
    one was open before, not on [ents] or [cat]. *)
Lemma after_word_open_agree s w tag st1 st2 :
  start st1 = start st2 → startCat st1 = startCat st2 →
  start (after_word s w tag st1) = start (after_word s w tag st2) ∧
  startCat (after_word s w tag st1) = startCat (after_word s w tag st2).
Proof.
  intros H1 H2. unfold after_word.
  destruct (classify tag); simpl; try done.
  destruct st1 as [l1 o1 c1 d1], st2 as [l2 o2 c2 d2]; simpl in *.
  subst o2 c2. by destruct o1.
Qed.

Lemma scan_words_open_agree s sent : ∀ w st1 st2 st1' st2',
  start st1 = start st2 → startCat st1 = startCat st2 →
  scan_words s w sent st1 = Ok st1' → scan_words s w sent st2 = Ok st2' →
  start st1' = start st2' ∧ startCat st1' = startCat st2'.
Proof.
  induction sent as [|tag rest IH]; intros w st1 st2 st1' st2' H1 H2; simpl.
  - by intros [= <-] [= <-].
  - rewrite !word_body_spec, !bind_Ok.
    destruct (after_word_open_agree s w tag st1 st2 H1 H2).
    by apply IH.
Qed.

(** The run of [scan_sentences] passes through the body of each of its
    sentences, and keeps what that body has emitted. *)
Lemma scan_sentences_lookup sequences : ∀ (k : nat) s st st' sent,
  sequences !! k = Some sent →
  scan_sentences s sequences st = Ok st' →
  ∃ stk stk', sentence_body (s + Z.of_nat k) sent stk = Ok stk' ∧
              ents stk' `prefix_of` ents st'.
Proof.
  induction sequences as [|sent0 rest IH]; intros k s st st' sent Hk; [done|].
  simpl. destruct (sentence_body s sent0 st) as [st1|] eqn:E; [|done].
  rewrite bind_Ok. intros Hrest. destruct k as [|k]; simpl in Hk.
  - injection Hk as ->. exists st, st1. rewrite Z.add_0_r. split; [done|].
    by eapply scan_sentences_prefix.
  - destruct (IH k (s + 1) st1 st' sent Hk Hrest) as (stk & stk' & Hb & Hp).
    exists stk, stk'. split; [|done].
    by replace (s + Z.of_nat (S k)) with (s + 1 + Z.of_nat k) by lia.
Qed.

(** C7.  If a chunk is open when the last word of sentence [k] has been
    scanned, the chunk is in the result, from its start to the last word
    of the sentence. *)
Theorem open_chunk_closed_at_sentence_end
    (sequences : list (list string)) (k : nat) (sent : list string)
    (st0 st : locals) (b : Z) :
  sequences !! k = Some sent →
  scan_words (Z.of_nat k) 0 sent (reset_start st0) = Ok st →
  start st = Some b →
  ∃ l, get_entities sequences = Ok l ∧
       (Z.of_nat k, b, Z.of_nat (length sent) - 1, startCat st) ∈ l.
Proof.
  intros Hk Hscan Hopen.
  destruct (scan_sentences_total sequences 0 entry) as [st' Hst'].
  exists (ents st'). unfold get_entities. rewrite Hst'. split; [done|].
  destruct (scan_sentences_lookup sequences k 0 entry st' sent Hk Hst')
    as (stk & stk' & Hbody & Hpre).
  eapply elem_of_prefix; [|exact Hpre].
  rewrite Z.add_0_l in Hbody. unfold sentence_body in Hbody.
  destruct (scan_words (Z.of_nat k) 0 sent (reset_start stk)) as [st1|] eqn:E;
    [|done].
  rewrite bind_Ok in Hbody. injection Hbody as <-.
  destruct (scan_words_open_agree (Z.of_nat k) sent 0
              (reset_start st0) (reset_start stk) st st1
              eq_refl eq_refl Hscan E) as [Hs Hc].
  rewrite <- Hs, Hopen, <- Hc. simpl.
  apply elem_of_app. right. by apply list_elem_of_singleton.
Qed.

Lemma open_chunk_witness :
  ∃ l, get_entities gold_example = Ok l ∧
       (Z.of_nat 0, 6, Z.of_nat (length ["B-PER"; "I-PER"; "O"; "O"; "O"; "O";
                                         "B-ORG"]) - 1,
        Some "ORG") ∈ l.
Proof.
  apply (open_chunk_closed_at_sentence_end gold_example 0
           ["B-PER"; "I-PER"; "O"; "O"; "O"; "O"; "B-ORG"] entry
           (Locals [(0, 0, 1, Some "PER")] (Some 6) (Some "ORG") (Some "ORG"))
           6); reflexivity.
Defined.

(** ** From a [B-] tag to its chunk *)

Lemma scan_words_app s pre : ∀ post w st,
  scan_words s w (pre ++ post) st
  = st' ← scan_words s w pre st;
    scan_words s (w + Z.of_nat (length pre)) post st'.
Proof.
  induction pre as [|tag pre IH]; intros post w st.
  - change (scan_words s w [] st) with (Ok st).
    by rewrite bind_Ok, Z.add_0_r.
  - change (scan_words s w ((tag :: pre) ++ post) st)
      with (st' ← word_body s w tag st;
            scan_words s (w + 1) (pre ++ post) st').
    change (scan_words s w (tag :: pre) st)
      with (st' ← word_body s w tag st; scan_words s (w + 1) pre st').
    rewrite word_body_spec, !bind_Ok, IH.
    by replace (w + 1 + Z.of_nat (length pre))
      with (w + Z.of_nat (length (tag :: pre))) by (simpl length; lia).
Qed.

(** A chunk that is open is either emitted by the rest of the word loop or
    still open, unchanged, when the loop ends. *)
Lemma open_chunk_emitted s rest : ∀ w st st' b,
  start st = Some b →
  scan_words s w rest st = Ok st' →
  (∃ e, w - 1 ≤ e ∧ (s, b, e, startCat st) ∈ ents st') ∨
  (start st' = Some b ∧ startCat st' = startCat st).
Proof.
  induction rest as [|tag rest IH]; intros w st st' b Hb; simpl.
  - intros [= <-]. by right.
  - rewrite word_body_spec, bind_Ok. intros Hrest.
    assert (Hclosed :
      (s, b, w - 1, startCat st) ∈ ents (close_chunk s (w - 1) st)).
    { unfold close_chunk. rewrite Hb. simpl.
      apply elem_of_app. right. by apply list_elem_of_singleton. }
    pose proof (scan_words_prefix _ _ _ _ _ Hrest) as Hpre.
    unfold after_word in Hrest, Hpre.
    destruct (classify tag) as [p1| |]; simpl in Hpre.
    + left. exists (w - 1). split; [lia|]. by eapply elem_of_prefix.
    + left. exists (w - 1). split; [lia|]. by eapply elem_of_prefix.
    + destruct (IH (w + 1) (set_cat (parse_tag tag (cat st)).2 st) st' b
                  Hb Hrest) as [(e & He & Hin)|Hopen].
      * left. exists e. split; [lia|done].
      * by right.
Qed.

(** For a category without hyphen, what C4 states holds: the chunk opened
    by a [B-] tag at word [w] of sentence [k] is in the result, with that
    start and that category. *)
Lemma begin_tag_chunk_emitted (sequences : list (list string))
    (k w : nat) (sent : list string) (c : string) :
  sequences !! k = Some sent →
  sent !! w = Some ("B-" ++ c)%string →
  no_dash c = true →
  ∃ l e, get_entities sequences = Ok l ∧ Z.of_nat w ≤ e ∧
         (Z.of_nat k, Z.of_nat w, e, Some c) ∈ l.
Proof.
  intros Hk Hw Hc.
  destruct (scan_sentences_total sequences 0 entry) as [st' Hst'].
  destruct (scan_sentences_lookup sequences k 0 entry st' sent Hk Hst')
    as (stk & stk' & Hbody & Hpre).
  rewrite Z.add_0_l in Hbody. unfold sentence_body in Hbody.
  destruct (scan_words (Z.of_nat k) 0 sent (reset_start stk)) as [st1|] eqn:E;
    [|done].
  rewrite bind_Ok in Hbody. injection Hbody as <-.
  apply list_elem_of_split_length in Hw as (pre & post & -> & ->).
  rewrite scan_words_app in E.
  destruct (scan_words_total (Z.of_nat k) pre 0 (reset_start stk))
    as [st0 Hst0].
  rewrite Hst0, bind_Ok in E. simpl in E.
  rewrite word_body_spec, bind_Ok in E.
  unfold after_word in E. rewrite (classify_begin c Hc) in E.
  rewrite Z.add_0_l in E.
  apply open_chunk_emitted with (b := Z.of_nat (length pre)) in E
    as [(e & He & Hin)|[Hopen Hcat]]; [| |done]; simpl in *.
  - exists (ents st'), e. unfold get_entities. rewrite Hst', bind_Ok.
    split; [done|]. split; [lia|].
    eapply elem_of_prefix; [|exact Hpre].
    destruct (start st1); simpl; [|done].
    apply elem_of_app. by left.
  - exists (ents st'), (Z.of_nat (length (pre ++ ("B-" ++ c)%string :: post)) - 1).
    unfold get_entities. rewrite Hst', bind_Ok.
    split; [done|]. split; [rewrite length_app; simpl; lia|].
    eapply elem_of_prefix; [|exact Hpre].
    rewrite Hopen, Hcat. simpl.
    apply elem_of_app. right. by apply list_elem_of_singleton.
Qed.

(** ** The emitted list as a whole *)

Lemma StronglySorted_lookup_lt {A : Type} (R : relation A) (l : list A) :
  StronglySorted R l →
  ∀ (i j : nat) (x y : A),
    (i < j)%nat → l !! i = Some x → l !! j = Some y → R x y.
Proof.
  induction 1 as [|h l Hl IH Hh]; intros i j x y Hij Hi Hj; [done|].
  destruct j as [|j]; [lia|]. simpl in Hj. destruct i as [|i]; simpl in Hi.
  - injection Hi as ->. rewrite Forall_forall in Hh.
    apply Hh. by eapply list_elem_of_lookup_2.
  - apply (IH i j); [lia|done|done].
Qed.

(** C9.  Every emitted chunk lies inside one sentence of the dataset: its
    sentence index is that of a sentence, its start and end satisfy
    0 <= start <= end <= len(sentence) - 1, and its category is a string
    (never [None]). *)
Theorem chunks_within_sentence (sequences : list (list string)) :
  ∃ l, get_entities sequences = Ok l ∧
       ∀ (s a b : Z) (c : option string),
         (s, a, b, c) ∈ l →
         ∃ sent : list string,
           0 ≤ s < Z.of_nat (length sequences) ∧
           sequences !! Z.to_nat s = Some sent ∧
           0 ≤ a ∧ a ≤ b ∧ b ≤ Z.of_nat (length sent) - 1 ∧
           is_Some c.
Proof.
  destruct (get_entities_total sequences) as [l Hl]. exists l.
  split; [done|]. intros s a b c Hin.
  destruct (get_entities_shape sequences l Hl) as [_ Hf].
  rewrite Forall_forall in Hf.
  destruct (Hf _ Hin) as (sent & Hs & Hk & Ha & Hab & Hb & Hc).
  unfold c_sent, c_start, c_end, c_cat in *; simpl in *.
  exists sent. apply lookup_lt_Some in Hk as Hlt.
  split_and!; try done; lia.
Qed.

(** C10.  The emitted list has no duplicates; two chunks of one sentence
    appear in the order of their spans, the earlier one ending before the
    later one starts; and the set built from the list has as many elements
    as the list. *)
Theorem chunks_distinct_and_ordered (sequences : list (list string)) :
  ∃ l, get_entities sequences = Ok l ∧
       NoDup l ∧
       (∀ (i j : nat) (s a b a' b' : Z) (c c' : option string),
          (i < j)%nat →
          l !! i = Some (s, a, b, c) → l !! j = Some (s, a', b', c') →
          a ≤ b ∧ b < a' ∧ a' ≤ b' ∧ a < a') ∧
       size (list_to_set l : gset chunk) = length l.
Proof.
  destruct (get_entities_total sequences) as [l Hl]. exists l.
  destruct (get_entities_shape sequences l Hl) as [Hs Hf].
  pose proof (sorted_fits_NoDup sequences l Hs Hf) as Hnd.
  split_and!; [done|done| |by apply size_list_to_set].
  intros i j s a b a' b' c c' Hij Hi Hj.
  pose proof (StronglySorted_lookup_lt before l Hs i j _ _ Hij Hi Hj) as Hb.
  rewrite Forall_forall in Hf.
  destruct (Hf _ (list_elem_of_lookup_2 _ _ _ Hi)) as (? & _ & _ & _ & Hab & _).
  destruct (Hf _ (list_elem_of_lookup_2 _ _ _ Hj)) as (? & _ & _ & _ & Hab' & _).
  unfold before, c_sent, c_start, c_end in *; simpl in *. lia.
Qed.

(** * The data preparation and the callback *)

(** ** [read_tsv] *)

Lemma read_tsv_flush rstrip lines :
  read_tsv rstrip lines = flush (foldl (line_body rstrip) ([], []) lines).
Proof.
  unfold read_tsv, flush.
  by destruct (foldl (line_body rstrip) ([], []) lines) as [ss s].
Qed.

Lemma line_body_data rstrip ss s line wt :
  parse_line rstrip line = Some wt →
  line_body rstrip (ss, s) line = (ss, s ++ [wt]).
Proof.
  unfold parse_line, line_body.
  destruct (str_split tab (rstrip line)) as [|w [|t cols]]; try done.
  by intros [= <-].
Qed.

Lemma line_body_separator rstrip ss s line :
  parse_line rstrip line = None →
  line_body rstrip (ss, s) line = (flush (ss, s), []).
Proof.
  unfold parse_line, line_body, flush.
  by destruct (str_split tab (rstrip line)) as [|w [|t cols]].
Qed.

(** The sentences already closed stay in front, whatever follows. *)
Lemma foldl_line_body_frame rstrip lines : ∀ ss s,
  foldl (line_body rstrip) (ss, s) lines
  = (ss ++ (foldl (line_body rstrip) ([], s) lines).1,
     (foldl (line_body rstrip) ([], s) lines).2).
Proof.
  induction lines as [|line lines IH]; intros ss s; cbn [foldl].
  - by rewrite app_nil_r.
  - destruct (parse_line rstrip line) as [wt|] eqn:Hp.
    + rewrite !(line_body_data _ _ _ _ _ Hp). apply IH.
    + rewrite !(line_body_separator _ _ _ _ Hp).
      rewrite (IH (flush (ss, s))), (IH (flush ([], s))).
      unfold flush; simpl. case_bool_decide; simpl;
        by rewrite ?app_nil_r, <- ?app_assoc.
Qed.

Lemma flush_foldl_frame rstrip lines ss s :
  flush (foldl (line_body rstrip) (ss, s) lines)
  = ss ++ flush (foldl (line_body rstrip) ([], s) lines).
Proof.
  rewrite foldl_line_body_frame. unfold flush; simpl.
  case_bool_decide; by rewrite ?app_assoc.
Qed.

(** X1.  A line with fewer than two columns separates: what is read from
    the lines before it and what is read from the lines after it are
    just put one after the other. *)
Theorem read_tsv_separator (rstrip : string → string)
    (before_ after_ : list string) (line : string) :
  parse_line rstrip line = None →
  read_tsv rstrip (before_ ++ line :: after_)
  = read_tsv rstrip before_ ++ read_tsv rstrip after_.
Proof.
  intros Hsep. rewrite !read_tsv_flush, foldl_app. cbn [foldl].
  destruct (foldl (line_body rstrip) ([], []) before_) as [ss s] eqn:E.
  rewrite (line_body_separator _ _ _ _ Hsep).
  by rewrite flush_foldl_frame.
Qed.

Lemma read_tsv_separator_witness :
  read_tsv (λ l, l) ([tsv_line "a" "O"] ++ "" :: [tsv_line "b" "O"])
  = read_tsv (λ l, l) [tsv_line "a" "O"]
    ++ read_tsv (λ l, l) [tsv_line "b" "O"].
Proof. apply read_tsv_separator. reflexivity. Defined.

Lemma foldl_line_body_block rstrip lines : ∀ ss s,
  Forall (λ line, is_Some (parse_line rstrip line)) lines →
  foldl (line_body rstrip) (ss, s) lines
  = (ss, s ++ omap (parse_line rstrip) lines).
Proof.
  induction lines as [|line lines IH]; intros ss s Hall; cbn [foldl omap list_omap].
  - by rewrite app_nil_r.
  - apply Forall_cons in Hall as [[wt Hwt] Hall].
    rewrite (line_body_data _ _ _ _ _ Hwt), Hwt, IH by done.
    by rewrite <- app_assoc.
Qed.

(** X2.  Lines that all have two columns or more, with no separator
    between them, are read as one sentence: the pairs of their first two
    columns, in order. *)
Theorem read_tsv_block (rstrip : string → string) (lines : list string) :
  lines ≠ [] →
  Forall (λ line, is_Some (parse_line rstrip line)) lines →
  read_tsv rstrip lines = [omap (parse_line rstrip) lines].
Proof.
  intros Hne Hall. rewrite read_tsv_flush, foldl_line_body_block by done.
  unfold flush; simpl. rewrite bool_decide_eq_true_2; [done|].
  destruct lines as [|line lines]; [done|].
  apply Forall_cons in Hall as [[wt Hwt] _]. simpl. rewrite Hwt. simpl. lia.
Qed.

Lemma read_tsv_block_witness :
  read_tsv (λ l, l) [tsv_line "a" "O"; tsv_line "b" "B-x"]
  = [omap (parse_line (λ l, l)) [tsv_line "a" "O"; tsv_line "b" "B-x"]].
Proof.
  apply read_tsv_block; [discriminate|].
  repeat constructor; by eexists.
Defined.

Lemma flush_nonempty ss s :
  Forall (λ sentence, sentence ≠ []) ss →
  Forall (λ sentence, sentence ≠ []) (flush (ss, s)).
Proof.
  intros Hss. unfold flush; simpl. case_bool_decide; [|done].
  apply Forall_app; split; [done|]. apply Forall_singleton.
  by destruct s; [simpl in *; lia|].
Qed.

Lemma foldl_line_body_nonempty rstrip lines : ∀ ss s,
  Forall (λ sentence, sentence ≠ []) ss →
  Forall (λ sentence, sentence ≠ [])
    (foldl (line_body rstrip) (ss, s) lines).1.
Proof.
  induction lines as [|line lines IH]; intros ss s Hss; cbn [foldl]; [done|].
  destruct (parse_line rstrip line) as [wt|] eqn:Hp.
  - rewrite (line_body_data _ _ _ _ _ Hp). by apply IH.
  - rewrite (line_body_separator _ _ _ _ Hp). by apply IH, flush_nonempty.
Qed.

(** X3.  [read_tsv] returns no empty sentence, however many separating
    lines follow one another or open or close the file. *)
Theorem read_tsv_no_empty_sentence (rstrip : string → string)
    (lines : list string) :
  Forall (λ sentence, sentence ≠ []) (read_tsv rstrip lines).
Proof.
  rewrite read_tsv_flush.
  pose proof (foldl_line_body_nonempty rstrip lines [] [] (Forall_nil_2 _)) as H.
  destruct (foldl (line_body rstrip) ([], []) lines) as [ss s].
  by apply flush_nonempty.
Qed.

Lemma concat_flush ss s : concat (flush (ss, s)) = concat ss ++ s.
Proof.
  unfold flush; simpl. case_bool_decide.
  - by rewrite concat_app; simpl; rewrite app_nil_r.
  - destruct s; [by rewrite app_nil_r|simpl in *; lia].
Qed.

Lemma foldl_line_body_concat rstrip lines : ∀ ss s,
  concat (flush (foldl (line_body rstrip) (ss, s) lines))
  = concat ss ++ s ++ omap (parse_line rstrip) lines.
Proof.
  induction lines as [|line lines IH]; intros ss s; cbn [foldl omap list_omap].
  - by rewrite concat_flush, app_nil_r.
  - destruct (parse_line rstrip line) as [wt|] eqn:Hp.
    + rewrite (line_body_data _ _ _ _ _ Hp), IH. by rewrite <- app_assoc.
    + rewrite (line_body_separator _ _ _ _ Hp), IH, concat_flush.
      by rewrite app_nil_l, app_assoc.
Qed.

(** X4.  Nothing is lost and nothing is made up: the sentences of
    [read_tsv], put end to end, are the pairs of the lines that have two
    columns or more, in the order of the file. *)
Theorem read_tsv_concat (rstrip : string → string) (lines : list string) :
  concat (read_tsv rstrip lines) = omap (parse_line rstrip) lines.
Proof. by rewrite read_tsv_flush, foldl_line_body_concat. Qed.




(** ** [get_tag_vocab] and [rev_tags] *)

Lemma tag_body_inv st wt :
  NoDup st.1.*1 ∧ st.1.*2 = seqZ 1 (len st.1) ∧ st.2 = 1 + len st.1 →
  NoDup (tag_body st wt).1.*1 ∧
  (tag_body st wt).1.*2 = seqZ 1 (len (tag_body st wt).1) ∧
  (tag_body st wt).2 = 1 + len (tag_body st wt).1.
Proof.
  destruct st as [tags tid]. unfold tag_body, len. simpl.
  intros (Hnd & Hids & ->). case_bool_decide as Hin; [done|]. simpl.
  rewrite !fmap_app, length_app. simpl. split_and!.
  - apply NoDup_app. split_and!; [done| |apply NoDup_singleton].
    intros t Ht ->%list_elem_of_singleton. done.
  - rewrite Hids. replace (Z.of_nat (length tags + 1))
      with (Z.of_nat (S (length tags))) by lia.
    by rewrite seqZ_S.
  - lia.
Qed.

Lemma tag_body_keys st wt t :
  t ∈ (tag_body st wt).1.*1 ↔ t ∈ st.1.*1 ∨ t = wt.2.
Proof.
  destruct st as [tags tid]. unfold tag_body. simpl.
  case_bool_decide as Hin; simpl.
  - split; [by left|]. by intros [?| ->].
  - rewrite fmap_app, elem_of_app. simpl.
    by rewrite list_elem_of_singleton.
Qed.

Lemma tag_body_prefix st wt : st.1 `prefix_of` (tag_body st wt).1.
Proof.
  destruct st as [tags tid]. unfold tag_body. simpl.
  case_bool_decide; simpl; [done|]. by apply prefix_app_r.
Qed.

Lemma foldl_tag_body_inv sentence : ∀ st,
  NoDup st.1.*1 ∧ st.1.*2 = seqZ 1 (len st.1) ∧ st.2 = 1 + len st.1 →
  NoDup (foldl tag_body st sentence).1.*1 ∧
  (foldl tag_body st sentence).1.*2
    = seqZ 1 (len (foldl tag_body st sentence).1) ∧
  (foldl tag_body st sentence).2 = 1 + len (foldl tag_body st sentence).1.
Proof.
  induction sentence as [|wt sentence IH]; intros st Hst; cbn [foldl];
    [done|].
  by apply IH, tag_body_inv.
Qed.

Lemma foldl_tag_body_keys sentence : ∀ st t,
  t ∈ (foldl tag_body st sentence).1.*1 ↔ t ∈ st.1.*1 ∨ t ∈ sentence.*2.
Proof.
  induction sentence as [|wt sentence IH]; intros st t; cbn [foldl].
  - simpl. rewrite elem_of_nil. tauto.
  - rewrite IH, tag_body_keys. rewrite fmap_cons, elem_of_cons. tauto.
Qed.

Lemma foldl_tag_body_prefix sentence : ∀ st,
  st.1 `prefix_of` (foldl tag_body st sentence).1.
Proof.
  induction sentence as [|wt sentence IH]; intros st; cbn [foldl]; [done|].
  etrans; [apply tag_body_prefix|apply IH].
Qed.

Lemma foldl_sentences_inv sentences : ∀ st,
  NoDup st.1.*1 ∧ st.1.*2 = seqZ 1 (len st.1) ∧ st.2 = 1 + len st.1 →
  NoDup (foldl (foldl tag_body) st sentences).1.*1 ∧
  (foldl (foldl tag_body) st sentences).1.*2
    = seqZ 1 (len (foldl (foldl tag_body) st sentences).1).
Proof.
  induction sentences as [|sentence sentences IH]; intros st Hst;
    cbn [foldl]; [by destruct Hst as (?&?&?)|].
  by apply IH, foldl_tag_body_inv.
Qed.

Lemma foldl_sentences_keys sentences : ∀ st t,
  t ∈ (foldl (foldl tag_body) st sentences).1.*1
  ↔ t ∈ st.1.*1 ∨ ∃ sentence, sentence ∈ sentences ∧ t ∈ sentence.*2.
Proof.
  induction sentences as [|sentence sentences IH]; intros st t; cbn [foldl].
  - split; [by left|]. intros [?|(sentence & []%elem_of_nil & _)]. done.
  - rewrite IH, foldl_tag_body_keys. split.
    + intros [[?|?]|(sentence' & ? & ?)]; [by left| |].
      * right. exists sentence. split; [by left|done].
      * right. exists sentence'. split; [by right|done].
    + intros [?|(sentence' & [->|?]%elem_of_cons & ?)]; [by left; left| |].
      * by left; right.
      * right. by exists sentence'.
Qed.

Lemma foldl_sentences_prefix sentences : ∀ st,
  st.1 `prefix_of` (foldl (foldl tag_body) st sentences).1.
Proof.
  induction sentences as [|sentence sentences IH]; intros st; cbn [foldl];
    [done|].
  etrans; [apply foldl_tag_body_prefix|apply IH].
Qed.

Lemma vocab_inv (sentences : list (list (string * string))) :
  NoDup (get_tag_vocab sentences).*1 ∧
  (get_tag_vocab sentences).*2 = seqZ 1 (len (get_tag_vocab sentences)).
Proof.
  apply (foldl_sentences_inv sentences ([], 1)). simpl.
  split_and!; [constructor|done|done].
Qed.

Lemma foldl_foldl_concat (sentences : list (list (string * string))) :
  ∀ st, foldl (foldl tag_body) st sentences
        = foldl tag_body st (concat sentences).
Proof.
  induction sentences as [|sentence sentences IH]; intros st; simpl;
    [done|].
  by rewrite foldl_app, IH.
Qed.

Lemma concat_tags_of (sentences : list (list (string * string))) :
  concat (tags_of sentences) = (concat sentences).*2.
Proof.
  unfold tags_of. induction sentences as [|sentence sentences IH]; [done|].
  rewrite fmap_cons. cbn [concat]. by rewrite fmap_app, IH.
Qed.

(** The tag that is new at word [j] is appended after the items of the
    tags seen before it, with the next id. *)
Lemma foldl_tag_body_first (data : list (string * string)) (j : nat)
    (t : string) :
  data.*2 !! j = Some t → t ∉ take j data.*2 →
  (foldl tag_body ([], 1) data).1
    !! size (list_to_set (take j data.*2) : gset string)
  = Some (t, Z.of_nat (size (list_to_set (take j data.*2) : gset string))
             + 1).
Proof.
  intros Hj Hnew. rewrite list_lookup_fmap in Hj.
  destruct (data !! j) as [[word t']|] eqn:Hwt; [|done]. simplify_eq/=.
  rewrite <- fmap_take in Hnew |- *.
  set (st := foldl tag_body ([], 1) (take j data)).
  assert (NoDup st.1.*1 ∧ st.1.*2 = seqZ 1 (len st.1) ∧ st.2 = 1 + len st.1)
    as (Hnd & _ & Htid).
  { apply foldl_tag_body_inv. simpl. split_and!; [constructor|done|done]. }
  assert (∀ t', t' ∈ st.1.*1 ↔ t' ∈ (take j data).*2) as Hkeys.
  { intros t'. unfold st. rewrite foldl_tag_body_keys. simpl.
    rewrite elem_of_nil. tauto. }
  assert (size (list_to_set (take j data).*2 : gset string) = length st.1)
    as ->.
  { rewrite <- (length_fmap fst st.1), <- (size_list_to_set (C:=gset string))
      by done.
    f_equal. apply set_eq. intros t'.
    by rewrite !elem_of_list_to_set, Hkeys. }
  assert (foldl tag_body ([], 1) data
          = foldl tag_body (tag_body st (word, t)) (drop (S j) data))
    as ->.
  { rewrite <- (take_drop_middle data j (word, t) Hwt) at 1.
    by rewrite foldl_app. }
  eapply prefix_lookup_Some; [|apply foldl_tag_body_prefix].
  clearbody st. destruct st as [tags tid]. unfold tag_body. simpl in *.
  rewrite bool_decide_eq_false_2 by by rewrite Hkeys.
  simpl. rewrite lookup_app_r, Nat.sub_diag by done. simpl.
  subst tid. unfold len. do 2 f_equal. lia.
Qed.

(** X6.  [get_tag_vocab] numbers the tags from 1 in the order in which
    they first occur in the data, read sentence by sentence and word by
    word: the tag that is new at word [j] is the item at position [d] and
    has the id [d + 1], where [d] is the number of distinct tags among the
    [j] tags before it.  The item at position [k] has the id [k + 1]; so no
    id is given twice, 0 is given to no tag, and no tag has two items. *)
Theorem get_tag_vocab_ids (sentences : list (list (string * string))) :
  NoDup (get_tag_vocab sentences).*1 ∧
  (∀ (k : nat) (t : string) (i : Z),
     get_tag_vocab sentences !! k = Some (t, i) → i = Z.of_nat k + 1) ∧
  ∀ (j : nat) (t : string),
    concat (tags_of sentences) !! j = Some t →
    t ∉ take j (concat (tags_of sentences)) →
    get_tag_vocab sentences
      !! size (list_to_set (take j (concat (tags_of sentences)))
               : gset string)
    = Some (t, Z.of_nat (size (list_to_set
                                 (take j (concat (tags_of sentences)))
                               : gset string)) + 1).
Proof.
  destruct (vocab_inv sentences) as [Hkeys Hids]. split_and!; [done| |].
  - intros k t i Hk.
    assert (Hi : (get_tag_vocab sentences).*2 !! k = Some i)
      by (by rewrite list_lookup_fmap, Hk).
    rewrite Hids in Hi. apply lookup_seqZ in Hi. lia.
  - intros j t. rewrite concat_tags_of. unfold get_tag_vocab.
    rewrite foldl_foldl_concat. apply foldl_tag_body_first.
Qed.

Lemma vocab_keys (sentences : list (list (string * string))) (t : string) :
  t ∈ (get_tag_vocab sentences).*1 ↔ occurs_in t sentences.
Proof.
  unfold get_tag_vocab, occurs_in. rewrite foldl_sentences_keys. simpl.
  split.
  - intros [[]%elem_of_nil|(sentence & Hs & Ht)].
    apply list_elem_of_fmap in Ht as ([word t'] & -> & Hwt).
    by exists sentence, word.
  - intros (sentence & word & Hs & Hwt). right. exists sentence.
    split; [done|]. apply list_elem_of_fmap. by exists (word, t).
Qed.

Lemma vocab_lookup (train : list (list (string * string)))
    (tag : string) (label : Z) :
  as_dict (get_tag_vocab train) !! tag = Some label →
  1 ≤ label < Z.of_nat (size (as_dict (get_tag_vocab train))) + 1.
Proof.
  destruct (vocab_inv train) as [Hkeys Hids]. unfold as_dict.
  rewrite map_size_list_to_map by done.
  rewrite <- elem_of_list_to_map by done. intros Hin.
  assert (Hl : label ∈ (get_tag_vocab train).*2)
    by (apply list_elem_of_fmap; by exists (tag, label)).
  rewrite Hids in Hl. apply elem_of_seqZ in Hl. unfold len in Hl. lia.
Qed.

Lemma vocab_known (train : list (list (string * string))) (tag : string) :
  is_Some (as_dict (get_tag_vocab train) !! tag) ↔ occurs_in tag train.
Proof.
  destruct (vocab_inv train) as [Hkeys _].
  rewrite <- vocab_keys. unfold as_dict. split.
  - intros [label Hl]. rewrite <- elem_of_list_to_map in Hl by done.
    apply list_elem_of_fmap. by exists (tag, label).
  - intros ([tag' label] & -> & Hin)%list_elem_of_fmap. exists label.
    by rewrite <- elem_of_list_to_map.
Qed.

(** X7.  The dictionary of [get_tag_vocab] knows the tags of the data and
    nothing else: a tag that occurs in a sentence has an id, between 1 and
    the number of tags, and every key occurs in a sentence. *)
Theorem get_tag_vocab_keys (sentences : list (list (string * string))) :
  (∀ t, occurs_in t sentences →
        ∃ i, as_dict (get_tag_vocab sentences) !! t = Some i ∧
             1 ≤ i ≤ Z.of_nat (size (as_dict (get_tag_vocab sentences)))) ∧
  (∀ t i, as_dict (get_tag_vocab sentences) !! t = Some i →
          occurs_in t sentences).
Proof.
  split.
  - intros t [i Hi]%vocab_known. exists i. split; [done|].
    apply vocab_lookup in Hi. lia.
  - intros t i Hi. apply vocab_known. by exists i.
Qed.

(** X8.  More data never changes an id: the vocabulary of a dataset is
    the beginning of the vocabulary of the dataset with sentences added
    after it. *)
Theorem get_tag_vocab_stable (sentences more : list (list (string * string))) :
  get_tag_vocab sentences `prefix_of` get_tag_vocab (sentences ++ more).
Proof.
  unfold get_tag_vocab. rewrite foldl_app. apply foldl_sentences_prefix.
Qed.

Lemma reverse_vocab_lookup (items : list (string * Z)) :
  ∀ (acc : gmap Z string) (i : Z) (t : string),
  NoDup items.*2 →
  (foldl (λ rev_tags item, <[item.2 := item.1]> rev_tags) acc items) !! i
    = Some t
  ↔ (t, i) ∈ items ∨ ((¬ i ∈ items.*2) ∧ acc !! i = Some t).
Proof.
  induction items as [|[t0 i0] items IH]; intros acc i t Hnd; cbn [foldl].
  - simpl. rewrite elem_of_nil. split; [intros ?; right|intros [[]|[_ ?]]];
      try done. split; [apply not_elem_of_nil|done].
  - rewrite fmap_cons in Hnd. apply NoDup_cons in Hnd as [Hi0 Hnd].
    rewrite (IH _ _ _ Hnd). simpl. rewrite elem_of_cons, not_elem_of_cons.
    destruct (decide (i = i0)) as [->|Hne].
    + rewrite lookup_insert_eq. split.
      * intros [Hin|[_ [= ->]]]; [|by left; left].
        exfalso. apply Hi0. apply list_elem_of_fmap. by exists (t, i0).
      * intros [[[= -> ]|Hin]|[[? _] _]]; [by right|by left|done].
    + rewrite lookup_insert_ne by done. split.
      * intros [?|[? ?]]; [by left; right|by right].
      * intros [[[= -> ->]|?]|[[_ ?] ?]]; [done|by left|by right].
Qed.

Lemma rev_tags_lookup (sentences : list (list (string * string)))
    (i : Z) (t : string) :
  reverse_vocab (get_tag_vocab sentences) !! i = Some t
  ↔ as_dict (get_tag_vocab sentences) !! t = Some i.
Proof.
  destruct (vocab_inv sentences) as [Hkeys Hids].
  assert (Hvals : NoDup (get_tag_vocab sentences).*2)
    by (rewrite Hids; apply NoDup_seqZ).
  unfold reverse_vocab, as_dict.
  rewrite (reverse_vocab_lookup _ ∅ i t Hvals), lookup_empty.
  rewrite <- elem_of_list_to_map by done.
  split; [intros [?|[_ ?]]; done|by left].
Qed.

Lemma rev_tags_dom (sentences : list (list (string * string))) (i : Z) :
  is_Some (reverse_vocab (get_tag_vocab sentences) !! i)
  ↔ 1 ≤ i ≤ len (get_tag_vocab sentences).
Proof.
  destruct (vocab_inv sentences) as [Hkeys Hids]. split.
  - intros [t Ht%rev_tags_lookup]. apply vocab_lookup in Ht.
    unfold as_dict in Ht. rewrite map_size_list_to_map in Ht by done.
    unfold len. lia.
  - intros Hi.
    assert (Hin : i ∈ (get_tag_vocab sentences).*2)
      by (rewrite Hids; apply elem_of_seqZ; lia).
    apply list_elem_of_fmap in Hin as ([t i'] & -> & Hin).
    exists t. apply rev_tags_lookup. unfold as_dict.
    by rewrite <- elem_of_list_to_map.
Qed.

(** X9.  [rev_tags] undoes [get_tag_vocab]: it maps an id to a tag exactly
    when the vocabulary maps the tag to the id; its keys are 1, ..., n,
    so the padding class 0 is no key of it. *)
Theorem rev_tags_round_trip (sentences : list (list (string * string))) :
  (∀ (t : string) (i : Z),
     as_dict (get_tag_vocab sentences) !! t = Some i
     ↔ reverse_vocab (get_tag_vocab sentences) !! i = Some t) ∧
  (∀ i : Z,
     is_Some (reverse_vocab (get_tag_vocab sentences) !! i)
     ↔ 1 ≤ i ≤ len (get_tag_vocab sentences)) ∧
  reverse_vocab (get_tag_vocab sentences) !! 0 = None.
Proof.
  split_and!.
  - intros t i. by rewrite rev_tags_lookup.
  - apply rev_tags_dom.
  - apply eq_None_not_Some. rewrite rev_tags_dom. lia.
Qed.

(** ** [get_word_ids] *)

Lemma bind_Done {A B : Type} (f : A → run B) (a : A) : Done a ≫= f = f a.
Proof. reflexivity. Qed.

Lemma bind_Throw {A B : Type} (f : A → run B) (e : error) :
  Throw e ≫= f = Throw e.
Proof. reflexivity. Qed.

Lemma to_categorical_in_range (y d : Z) :
  0 ≤ y < d → to_categorical y d = Done (one_hot d y).
Proof.
  intros Hy. unfold to_categorical.
  rewrite (bool_decide_eq_false_2 (d = 0)) by lia.
  rewrite (bool_decide_eq_false_2 (d < 0)) by lia.
  by rewrite (bool_decide_eq_true_2 (0 ≤ y < d)).
Qed.


Lemma argmax_from_miss (y : Z) (n : nat) : ∀ i best_i best,
  0 ≤ best → (y < i ∨ i + Z.of_nat n ≤ y) →
  argmax_from best_i best i
    ((λ j, if bool_decide (j = y) then 1 else 0) <$> seqZ i (Z.of_nat n))
  = best_i.
Proof.
  induction n as [|n IH]; intros i best_i best Hbest Hy; [done|].
  rewrite seqZ_cons by lia. rewrite fmap_cons. cbn [argmax_from].
  rewrite (bool_decide_eq_false_2 (i = y)) by lia.
  rewrite (bool_decide_eq_false_2 (best < 0)) by lia.
  replace (Z.pred (Z.of_nat (S n))) with (Z.of_nat n) by lia.
  replace (Z.succ i) with (i + 1) by lia.
  apply IH; lia.
Qed.

Lemma argmax_from_hit (y : Z) (n : nat) : ∀ i best_i,
  i ≤ y < i + Z.of_nat n →
  argmax_from best_i 0 i
    ((λ j, if bool_decide (j = y) then 1 else 0) <$> seqZ i (Z.of_nat n))
  = y.
Proof.
  induction n as [|n IH]; intros i best_i Hy; [lia|].
  rewrite seqZ_cons by lia. rewrite fmap_cons. cbn [argmax_from].
  replace (Z.pred (Z.of_nat (S n))) with (Z.of_nat n) by lia.
  replace (Z.succ i) with (i + 1) by lia.
  destruct (decide (i = y)) as [->|Hne].
  - rewrite (bool_decide_eq_true_2 (y = y)) by done.
    rewrite (bool_decide_eq_true_2 (0 < 1)) by lia.
    apply argmax_from_miss; lia.
  - rewrite (bool_decide_eq_false_2 (i = y)) by done.
    rewrite (bool_decide_eq_false_2 (0 < 0)) by lia.
    apply IH. lia.
Qed.

(** The class of a one-hot row is read back by [argmax]. *)
Lemma argmax_one_hot (d y : Z) : 0 ≤ y < d → argmax (one_hot d y) = y.
Proof.
  intros Hy. unfold one_hot, argmax.
  rewrite seqZ_cons by lia. rewrite fmap_cons.
  replace (Z.pred d) with (Z.of_nat (Z.to_nat (d - 1))) by lia.
  change (Z.succ 0) with 1.
  destruct (decide (y = 0)) as [->|Hne].
  - rewrite (bool_decide_eq_true_2 (0 = 0)) by done.
    apply argmax_from_miss; lia.
  - rewrite (bool_decide_eq_false_2 (0 = y)) by lia.
    apply argmax_from_hit. lia.
Qed.

Lemma pad_words_spec (d : Z) (n : nat) : ∀ wids tids,
  0 < d →
  pad_words d n wids tids
  = Done (wids ++ replicate n 0, tids ++ replicate n (one_hot d 0)).
Proof.
  induction n as [|n IH]; intros wids tids Hd; simpl.
  - by rewrite !app_nil_r.
  - rewrite to_categorical_in_range, bind_Done by lia.
    rewrite IH by done. by rewrite <- !app_assoc.
Qed.

Lemma encode_words_spec (lower : string → string)
    (word_vocab label_vocab : gmap string Z) (d : Z)
    (sentence : list (string * string)) : ∀ wids tids,
  (∀ word tag label, (word, tag) ∈ sentence →
     label_vocab !! tag = Some label → 0 ≤ label < d) →
  encode_words lower word_vocab label_vocab d sentence wids tids
  = if decide (Forall (λ wt : string * string,
                         is_Some (label_vocab !! wt.2)) sentence)
    then Done (wids ++ (word_id lower word_vocab <$> sentence.*1),
               tids ++ ((λ tag, one_hot d (default 0 (label_vocab !! tag)))
                          <$> sentence.*2))
    else Throw KeyError.
Proof.
  set (known := λ wt : string * string, is_Some (label_vocab !! wt.2)).
  induction sentence as [|[word tag] sentence IH]; intros wids tids Hids.
  - simpl. rewrite !app_nil_r.
    by destruct (decide (Forall known [])) as [|[]].
  - cbn [encode_words]. unfold dict_get.
    destruct (label_vocab !! tag) as [label|] eqn:Htag.
    + rewrite bind_Done.
      rewrite to_categorical_in_range, bind_Done
        by (eapply Hids; [left|done]).
      rewrite IH
        by (intros w t l Hin Hl; apply (Hids w t l); [by right|done]).
      destruct (decide (Forall known sentence)) as [Hall|Hnot];
        destruct (decide (Forall known ((word, tag) :: sentence)))
          as [Hall'|Hnot']; try done.
      * rewrite !fmap_cons. simpl. rewrite Htag. simpl.
        by rewrite <- !app_assoc.
      * destruct Hnot'. constructor; [|done].
        unfold known; simpl. by rewrite Htag.
      * destruct Hnot. by apply Forall_cons in Hall' as [_ ?].
    + rewrite bind_Throw.
      destruct (decide (Forall known ((word, tag) :: sentence)))
        as [Hall'|]; [|done].
      apply Forall_cons in Hall' as [[? Hsome] _]. simpl in Hsome.
      by rewrite Htag in Hsome.
Qed.

Lemma encode_sentences_spec (lower : string → string)
    (word_vocab label_vocab : gmap string Z) (d m : Z)
    (sentences : list (list (string * string))) : ∀ words_ids tags_ids lens,
  0 < d →
  (∀ sentence word tag label, sentence ∈ sentences →
     (word, tag) ∈ sentence → label_vocab !! tag = Some label →
     0 ≤ label < d) →
  encode_sentences lower word_vocab label_vocab d m sentences
    (words_ids, tags_ids, lens)
  = if decide (all_known label_vocab sentences)
    then Done (words_ids ++ (encoded_words lower word_vocab m <$> sentences),
               tags_ids ++ (encoded_tags label_vocab d m <$> sentences),
               lens ++ (len <$> sentences))
    else Throw KeyError.
Proof.
  unfold all_known.
  set (known := λ wt : string * string, is_Some (label_vocab !! wt.2)).
  induction sentences as [|sentence sentences IH];
    intros words_ids tags_ids lens Hd Hids.
  - simpl. rewrite !app_nil_r.
    by destruct (decide (Forall (Forall known) [])) as [|[]].
  - cbn [encode_sentences].
    rewrite encode_words_spec
      by (intros w t l Hin Hl; apply (Hids sentence w t l); [left|done|done]).
    fold known.
    destruct (decide (Forall known sentence)) as [Hs|Hs].
    + rewrite bind_Done. simpl app.
      rewrite pad_words_spec, bind_Done by done.
      rewrite IH
        by first [done | intros s' w t l Hs' Hin Hl;
                         apply (Hids s' w t l); [by right|done|done]].
      assert (Hlen : len (word_id lower word_vocab <$> sentence.*1)
                     = len sentence)
        by (unfold len; by rewrite !length_fmap).
      rewrite Hlen.
      destruct (decide (Forall (Forall known) sentences)) as [Hall|Hnot];
        destruct (decide (Forall (Forall known) (sentence :: sentences)))
          as [Hall'|Hnot']; try done.
      * unfold encoded_words, encoded_tags. by rewrite <- !app_assoc.
      * destruct Hnot'. by constructor.
      * destruct Hnot. by apply Forall_cons in Hall' as [_ ?].
    + rewrite bind_Throw.
      destruct (decide (Forall (Forall known) (sentence :: sentences)))
        as [Hall'|]; [|done].
      by apply Forall_cons in Hall' as [? _].
Qed.

Lemma get_word_ids_spec (lower : string → string)
    (sentences : list (list (string * string)))
    (word_vocab label_vocab : gmap string Z) :
  ids_valid label_vocab sentences →
  get_word_ids lower sentences word_vocab label_vocab
  = if decide (all_known label_vocab sentences)
    then Done (encoded_words lower word_vocab (max_length sentences)
                 <$> sentences,
               encoded_tags label_vocab (Z.of_nat (size label_vocab) + 1)
                 (max_length sentences) <$> sentences,
               len <$> sentences)
    else Throw KeyError.
Proof.
  intros Hids. unfold get_word_ids.
  rewrite encode_sentences_spec; [done|lia|exact Hids].
Qed.








Lemma tags_known_valid label_vocab sentences :
  tags_known label_vocab sentences →
  ids_valid label_vocab sentences ∧ all_known label_vocab sentences.
Proof.
  intros Hk. split.
  - intros sentence word tag label Hs Hwt Hl.
    destruct (Hk sentence word tag Hs Hwt) as (label' & Hl' & Hr).
    by simplify_eq.
  - apply Forall_forall. intros sentence Hs.
    apply Forall_forall. intros [word tag] Hwt.
    destruct (Hk sentence word tag Hs Hwt) as (label & Hl & _).
    simpl. by rewrite Hl.
Qed.

(** X11.  When every tag is known with an id that is an index of a row,
    [get_word_ids] returns, and cutting row [i] at the length of sentence
    [i] gives back the sentence: the ids of its words, and tag rows whose
    [argmax] are the ids of its tags.  What is cut off is padding: word
    id 0 and rows whose [argmax] is 0. *)
Theorem get_word_ids_decode (lower : string → string)
    (sentences : list (list (string * string)))
    (word_vocab label_vocab : gmap string Z) :
  tags_known label_vocab sentences →
  ∃ X Y S,
    get_word_ids lower sentences word_vocab label_vocab = Done (X, Y, S) ∧
    ∀ (i : nat) (sentence : list (string * string)),
      sentences !! i = Some sentence →
      ∃ wids tids,
        X !! i = Some wids ∧ Y !! i = Some tids ∧
        S !! i = Some (len sentence) ∧
        take (length sentence) wids
          = word_id lower word_vocab <$> sentence.*1 ∧
        Some <$> (argmax <$> take (length sentence) tids)
          = (λ tag, label_vocab !! tag) <$> sentence.*2 ∧
        Forall (λ w, w = 0) (drop (length sentence) wids) ∧
        Forall (λ row, argmax row = 0) (drop (length sentence) tids).
Proof.
  intros Hk. destruct (tags_known_valid _ _ Hk) as [Hids Hall].
  rewrite (get_word_ids_spec _ _ _ _ Hids).
  destruct (decide (all_known label_vocab sentences)); [|done].
  eexists _, _, _. split; [done|].
  intros i sentence Hi. rewrite !list_lookup_fmap, Hi. simpl.
  eexists _, _. split_and!; try done.
  - unfold encoded_words.
    rewrite take_app_length'; [done|by rewrite !length_fmap].
  - unfold encoded_tags.
    rewrite take_app_length' by (by rewrite !length_fmap).
    rewrite <- !list_fmap_compose. apply list_fmap_ext.
    intros j [word tag] Hj. simpl.
    destruct (Hk sentence word tag) as (label & Hl & Hr).
    { by eapply list_elem_of_lookup_2. }
    { by eapply list_elem_of_lookup_2. }
    rewrite Hl. simpl. by rewrite argmax_one_hot.
  - unfold encoded_words.
    rewrite drop_app_length' by (by rewrite !length_fmap).
    by apply Forall_replicate.
  - unfold encoded_tags.
    rewrite drop_app_length' by (by rewrite !length_fmap).
    apply Forall_replicate. apply argmax_one_hot. lia.
Qed.

Lemma get_word_ids_decode_witness :
  ∃ X Y S,
    get_word_ids (λ w, w) [[("a", "O"); ("b", "B-x")]; [("c", "O")]]
      (<["a" := 5]> ∅) (<["O" := 1]> (<["B-x" := 2]> ∅)) = Done (X, Y, S) ∧
    ∀ (i : nat) (sentence : list (string * string)),
      [[("a", "O"); ("b", "B-x")]; [("c", "O")]] !! i = Some sentence →
      ∃ wids tids,
        X !! i = Some wids ∧ Y !! i = Some tids ∧
        S !! i = Some (len sentence) ∧
        take (length sentence) wids
          = word_id (λ w, w) (<["a" := 5]> ∅) <$> sentence.*1 ∧
        Some <$> (argmax <$> take (length sentence) tids)
          = (λ tag, (<["O" := 1]> (<["B-x" := 2]> ∅) : gmap string Z) !! tag)
              <$> sentence.*2 ∧
        Forall (λ w, w = 0) (drop (length sentence) wids) ∧
        Forall (λ row, argmax row = 0) (drop (length sentence) tids).
Proof.
  apply get_word_ids_decode.
  intros sentence word tag Hs Hwt.
  assert (Htag : tag = "O" ∨ tag = "B-x").
  { repeat (apply elem_of_cons in Hs as [->|Hs]);
      [| |by apply elem_of_nil in Hs];
      repeat (apply elem_of_cons in Hwt as [[= _ ->]|Hwt]);
      try (by apply elem_of_nil in Hwt); auto. }
  destruct Htag as [->| ->]; eexists; (split; [reflexivity|done]).
Defined.

(** X12.  With a vocabulary whose ids are indices of a row, a tag of the
    data that is no key of the vocabulary makes [get_word_ids] raise
    [KeyError]: nothing is returned for the sentences that were fine. *)
Theorem get_word_ids_unknown_tag (lower : string → string)
    (sentences : list (list (string * string)))
    (word_vocab label_vocab : gmap string Z)
    (sentence : list (string * string)) (word tag : string) :
  ids_valid label_vocab sentences →
  sentence ∈ sentences → (word, tag) ∈ sentence →
  label_vocab !! tag = None →
  get_word_ids lower sentences word_vocab label_vocab = Throw KeyError.
Proof.
  intros Hids Hs Hwt Hnone. rewrite (get_word_ids_spec _ _ _ _ Hids).
  destruct (decide (all_known label_vocab sentences)) as [Hall|]; [|done].
  unfold all_known in Hall. rewrite Forall_forall in Hall.
  specialize (Hall sentence Hs). rewrite Forall_forall in Hall.
  specialize (Hall (word, tag) Hwt). simpl in Hall.
  rewrite Hnone in Hall. by destruct Hall.
Qed.

Lemma get_word_ids_unknown_tag_witness :
  get_word_ids (λ w, w) [[("a", "O"); ("b", "B-y")]]
    (<["a" := 5]> ∅) (<["O" := 1]> (<["B-x" := 2]> ∅)) = Throw KeyError.
Proof.
  apply (get_word_ids_unknown_tag (λ w, w) _ _ _
           [("a", "O"); ("b", "B-y")] "b" "B-y").
  - intros sentence word tag label _ _ Hl. vm_compute.
    apply lookup_insert_Some in Hl as [[_ <-]|[_ Hl]]; [done|].
    apply lookup_insert_Some in Hl as [[_ <-]|[_ Hl]]; done.
  - by left.
  - right. by left.
  - reflexivity.
Defined.

Lemma vocab_ids_valid (train sentences : list (list (string * string))) :
  ids_valid (as_dict (get_tag_vocab train)) sentences.
Proof.
  intros sentence word tag label _ _ Hl. apply vocab_lookup in Hl. lia.
Qed.

(** X13.  With the vocabulary of the training data, [get_word_ids]
    encodes a dataset exactly when each of its tags occurs in the training
    data, and raises [KeyError] as soon as one does not: the training data
    itself is always encoded. *)
Theorem get_word_ids_train_vocab (lower : string → string)
    (train dev : list (list (string * string)))
    (word_vocab : gmap string Z) :
  ((∀ sentence word tag, sentence ∈ dev → (word, tag) ∈ sentence →
      occurs_in tag train) →
   ∃ X Y S, get_word_ids lower dev word_vocab
              (as_dict (get_tag_vocab train)) = Done (X, Y, S)) ∧
  (∀ sentence word tag, sentence ∈ dev → (word, tag) ∈ sentence →
     ¬ occurs_in tag train →
     get_word_ids lower dev word_vocab (as_dict (get_tag_vocab train))
     = Throw KeyError) ∧
  ∃ X Y S, get_word_ids lower train word_vocab
             (as_dict (get_tag_vocab train)) = Done (X, Y, S).
Proof.
  assert (Hdone : ∀ data,
    (∀ sentence word tag, sentence ∈ data → (word, tag) ∈ sentence →
       occurs_in tag train) →
    ∃ X Y S, get_word_ids lower data word_vocab
               (as_dict (get_tag_vocab train)) = Done (X, Y, S)).
  { intros data Hocc.
    rewrite (get_word_ids_spec _ _ _ _ (vocab_ids_valid train data)).
    destruct (decide (all_known _ data)) as [|Hnot]; [by eexists _, _, _|].
    destruct Hnot. apply Forall_forall. intros sentence Hs.
    apply Forall_forall. intros [word tag] Hwt. simpl.
    apply vocab_known. by eapply Hocc. }
  split_and!.
  - apply Hdone.
  - intros sentence word tag Hs Hwt Hnot.
    rewrite (get_word_ids_spec _ _ _ _ (vocab_ids_valid train dev)).
    destruct (decide (all_known _ dev)) as [Hall|]; [|done].
    unfold all_known in Hall. rewrite Forall_forall in Hall.
    specialize (Hall sentence Hs). rewrite Forall_forall in Hall.
    specialize (Hall (word, tag) Hwt). simpl in Hall.
    by apply vocab_known in Hall.
  - apply Hdone. intros sentence word tag Hs Hwt. by exists sentence, word.
Qed.

(** ** [F_score.on_epoch_end] *)

Lemma dict_get_Done {V : Type} (d : gmap Z V) (k : Z) (v : V) :
  dict_get d k = Done v ↔ d !! k = Some v.
Proof.
  unfold dict_get. destruct (d !! k); split; intros Heq; by simplify_eq.
Qed.

Lemma np_get_Done {A : Type} (a : list A) (i : nat) (v : A) :
  np_get a i = Done v ↔ a !! i = Some v.
Proof.
  unfold np_get. destruct (a !! i); split; intros Heq; by simplify_eq.
Qed.

Lemma collect_words_inv (rev : gmap Z string) (truth y : list (list Z))
    (i : nat) (js : list nat) : ∀ sg sp g p,
  collect_words rev truth y i js sg sp = Done (g, p) →
  ∃ g' p',
    g = sg ++ g' ∧ p = sp ++ p' ∧
    Forall2 (λ j tag, ∃ c, np_get2 truth i j = Done c ∧ rev !! c = Some tag)
      js g' ∧
    Forall2 (λ j tag, ∃ c, np_get2 y i j = Done c ∧ rev !! c = Some tag)
      js p'.
Proof.
  induction js as [|j js IH]; intros sg sp g p; cbn [collect_words].
  - intros [= <- <-]. exists [], []. rewrite !app_nil_r.
    split_and!; try done; constructor.
  - destruct (np_get2 truth i j) as [cg|] eqn:Hcg; [|throw_case].
    rewrite bind_Done.
    destruct (dict_get rev cg) as [tg|] eqn:Htg; [|throw_case].
    rewrite bind_Done. apply dict_get_Done in Htg.
    destruct (np_get2 y i j) as [cp|] eqn:Hcp; [|throw_case].
    rewrite bind_Done.
    destruct (dict_get rev cp) as [tp|] eqn:Htp; [|throw_case].
    rewrite bind_Done. apply dict_get_Done in Htp.
    intros (g' & p' & -> & -> & Hg & Hp)%IH.
    exists (tg :: g'), (tp :: p'). rewrite <- !app_assoc.
    split_and!; try done; constructor; eauto.
Qed.

Lemma collect_words_done (rev : gmap Z string) (truth y : list (list Z))
    (i : nat) (js : list nat) : ∀ sg sp g' p',
  Forall2 (λ j tag, ∃ c, np_get2 truth i j = Done c ∧ rev !! c = Some tag)
    js g' →
  Forall2 (λ j tag, ∃ c, np_get2 y i j = Done c ∧ rev !! c = Some tag)
    js p' →
  collect_words rev truth y i js sg sp = Done (sg ++ g', sp ++ p').
Proof.
  induction js as [|j js IH]; intros sg sp g' p' Hg Hp;
    cbn [collect_words].
  - apply Forall2_nil_inv_l in Hg as ->. apply Forall2_nil_inv_l in Hp as ->.
    by rewrite !app_nil_r.
  - apply Forall2_cons_inv_l in Hg as (tg & g'' & (cg & Hcg & Htg) & Hg & ->).
    apply Forall2_cons_inv_l in Hp as (tp & p'' & (cp & Hcp & Htp) & Hp & ->).
    apply dict_get_Done in Htg, Htp.
    rewrite Hcg, bind_Done, Htg, bind_Done, Hcp, bind_Done, Htp, bind_Done.
    rewrite (IH _ _ g'' p'') by done. by rewrite <- !app_assoc.
Qed.

Lemma collect_sentences_inv (rev : gmap Z string) (truth y : list (list Z))
    (valS : list Z) (idx : list nat) : ∀ golds preds G P,
  collect_sentences rev truth y valS idx golds preds = Done (G, P) →
  ∃ G' P',
    G = golds ++ G' ∧ P = preds ++ P' ∧
    Forall2 (row_decoded rev truth valS) idx G' ∧
    Forall2 (row_decoded rev y valS) idx P'.
Proof.
  induction idx as [|i idx IH]; intros golds preds G P;
    cbn [collect_sentences].
  - intros [= <- <-]. exists [], []. rewrite !app_nil_r.
    split_and!; try done; constructor.
  - destruct (np_get valS i) as [n|] eqn:Hn; [|throw_case].
    rewrite bind_Done. apply np_get_Done in Hn.
    destruct (collect_words rev truth y i (seq 0 (Z.to_nat n)) [] [])
      as [[sg sp]|] eqn:Hw; [|throw_case].
    rewrite bind_Done.
    apply collect_words_inv in Hw as (g' & p' & -> & -> & Hg & Hp).
    intros (G' & P' & -> & -> & HG & HP)%IH.
    exists (g' :: G'), (p' :: P'). rewrite <- !app_assoc.
    split_and!; try done; constructor; try done; by exists n.
Qed.

Lemma collect_sentences_done (rev : gmap Z string) (truth y : list (list Z))
    (valS : list Z) (idx : list nat) : ∀ golds preds G' P',
  Forall2 (row_decoded rev truth valS) idx G' →
  Forall2 (row_decoded rev y valS) idx P' →
  collect_sentences rev truth y valS idx golds preds
  = Done (golds ++ G', preds ++ P').
Proof.
  induction idx as [|i idx IH]; intros golds preds G' P' HG HP;
    cbn [collect_sentences].
  - apply Forall2_nil_inv_l in HG as ->. apply Forall2_nil_inv_l in HP as ->.
    by rewrite !app_nil_r.
  - apply Forall2_cons_inv_l in HG as (g & G'' & (n & Hn & Hg) & HG & ->).
    apply Forall2_cons_inv_l in HP as (p & P'' & (n' & Hn' & Hp) & HP & ->).
    simplify_eq. apply np_get_Done in Hn. rewrite Hn, bind_Done.
    rewrite (collect_words_done rev truth y i _ [] [] g p Hg Hp), bind_Done.
    rewrite (IH _ _ G'' P'') by done. by rewrite <- !app_assoc.
Qed.

(** What [collect] returns, when it returns: each row decoded up to the
    length of its sentence. *)
Lemma collect_iff (rev : gmap Z string) (y truth : list (list Z))
    (valS : list Z) (G P : list (list string)) :
  collect rev y truth valS = Done (G, P)
  ↔ Forall2 (row_decoded rev truth valS) (seq 0 (length y)) G ∧
    Forall2 (row_decoded rev y valS) (seq 0 (length y)) P.
Proof.
  unfold collect. split.
  - intros (G' & P' & -> & -> & HG & HP)%collect_sentences_inv. done.
  - intros [HG HP]. by rewrite (collect_sentences_done _ _ _ _ _ [] [] G P).
Qed.

Lemma decoded_length rev a i n tags :
  decoded rev a i n tags → length tags = Z.to_nat n.
Proof.
  intros H%Forall2_length. by rewrite length_seq in H.
Qed.

(** X14.  The two datasets that the callback gives to [calculateF1] are
    aligned: as many sentences as the predictions have rows, in both, and
    sentence [i] has [int(valS[i])] tags in both (none when that is
    negative). *)
Theorem collect_aligned (reverse_tag_vocab : gmap Z string)
    (y_classes truth : list (list Z)) (valS : list Z)
    (golds preds : list (list string)) :
  collect reverse_tag_vocab y_classes truth valS = Done (golds, preds) →
  length golds = length y_classes ∧ length preds = length y_classes ∧
  ∀ (i : nat) (sent_golds sent_preds : list string),
    golds !! i = Some sent_golds → preds !! i = Some sent_preds →
    ∃ n, valS !! i = Some n ∧
         length sent_golds = Z.to_nat n ∧ length sent_preds = Z.to_nat n.
Proof.
  intros [HG HP]%collect_iff.
  pose proof (Forall2_length _ _ _ HG) as HlG.
  pose proof (Forall2_length _ _ _ HP) as HlP.
  rewrite length_seq in HlG, HlP. split_and!; [done|done|].
  intros i sg sp Hsg Hsp.
  destruct (Forall2_lookup_r _ _ _ i sg HG Hsg) as (i1 & Hi1 & n & Hn & Hdg).
  destruct (Forall2_lookup_r _ _ _ i sp HP Hsp) as (i2 & Hi2 & n' & Hn' & Hdp).
  apply lookup_seq in Hi1 as [-> _]. apply lookup_seq in Hi2 as [-> _].
  simpl in *. simplify_eq. exists n.
  split_and!; [done|by eapply decoded_length..].
Qed.

Lemma collect_aligned_witness :
  length [["O"; "B-x"]; ["O"]] = length [[1; 2; 0]; [1; 0; 0]] ∧
  length [["B-x"; "O"]; ["B-x"]] = length [[1; 2; 0]; [1; 0; 0]] ∧
  ∀ (i : nat) (sent_golds sent_preds : list string),
    [["O"; "B-x"]; ["O"]] !! i = Some sent_golds →
    [["B-x"; "O"]; ["B-x"]] !! i = Some sent_preds →
    ∃ n, [2; 1] !! i = Some n ∧
         length sent_golds = Z.to_nat n ∧ length sent_preds = Z.to_nat n.
Proof.
  apply (collect_aligned (<[1 := "O"]> (<[2 := "B-x"]> ∅))
           [[2; 1; 0]; [2; 0; 0]] [[1; 2; 0]; [1; 0; 0]] [2; 1]).
  vm_compute. reflexivity.
Defined.

(** Only [IndexError] and [KeyError] come out of the two loops. *)
Lemma np_get_throw {A : Type} (a : list A) (i : nat) (e : error) :
  np_get a i = Throw e → e = IndexError.
Proof. unfold np_get. destruct (a !! i); by intros [=]. Qed.

Lemma np_get2_throw {A : Type} (a : list (list A)) (i j : nat) (e : error) :
  np_get2 a i j = Throw e → e = IndexError.
Proof.
  unfold np_get2. destruct (np_get a i) as [row|e'] eqn:Hrow; simpl.
  - apply np_get_throw.
  - intros [= <-]. by eapply np_get_throw.
Qed.

Lemma dict_get_throw {V : Type} (d : gmap Z V) (k : Z) (e : error) :
  dict_get d k = Throw e → e = KeyError.
Proof. unfold dict_get. destruct (d !! k); by intros [=]. Qed.

Lemma np_get2_Done {A : Type} (a : list (list A)) (i j : nat) (v : A) :
  np_get2 a i j = Done v ↔ ∃ row, a !! i = Some row ∧ row !! j = Some v.
Proof.
  unfold np_get2, np_get. destruct (a !! i) as [row|]; simpl.
  - destruct (row !! j) as [v'|] eqn:Hj; split.
    + intros [= ->]. by exists row.
    + intros (row' & [= <-] & Hv). congruence.
    + intros [=].
    + intros (row' & [= <-] & Hv). congruence.
  - split; [intros [=]|intros (row & Hrow & _); discriminate Hrow].
Qed.

Lemma collect_words_throw (rev : gmap Z string) (truth y : list (list Z))
    (i : nat) (js : list nat) : ∀ sg sp e,
  collect_words rev truth y i js sg sp = Throw e →
  e = KeyError ∨ e = IndexError.
Proof.
  induction js as [|j js IH]; intros sg sp e; cbn [collect_words]; [done|].
  destruct (np_get2 truth i j) as [cg|e1] eqn:Hcg.
  2:{ simpl. intros [= <-]. right. by eapply np_get2_throw. }
  rewrite bind_Done. destruct (dict_get rev cg) as [tg|e1] eqn:Htg.
  2:{ simpl. intros [= <-]. left. by eapply dict_get_throw. }
  rewrite bind_Done. destruct (np_get2 y i j) as [cp|e1] eqn:Hcp.
  2:{ simpl. intros [= <-]. right. by eapply np_get2_throw. }
  rewrite bind_Done. destruct (dict_get rev cp) as [tp|e1] eqn:Htp.
  2:{ simpl. intros [= <-]. left. by eapply dict_get_throw. }
  rewrite bind_Done. apply IH.
Qed.

Lemma collect_sentences_throw (rev : gmap Z string)
    (truth y : list (list Z)) (valS : list Z) (idx : list nat) :
  ∀ golds preds e,
  collect_sentences rev truth y valS idx golds preds = Throw e →
  e = KeyError ∨ e = IndexError.
Proof.
  induction idx as [|i idx IH]; intros golds preds e;
    cbn [collect_sentences]; [done|].
  destruct (np_get valS i) as [n|e1] eqn:Hn.
  2:{ simpl. intros [= <-]. right. by eapply np_get_throw. }
  rewrite bind_Done.
  destruct (collect_words rev truth y i (seq 0 (Z.to_nat n)) [] [])
    as [[sg sp]|e1] eqn:Hw.
  2:{ simpl. intros [= <-]. by eapply collect_words_throw. }
  rewrite bind_Done. apply IH.
Qed.

(** The loops read the cells [j < int(valS[i])] of row [i], and no
    other. *)
Lemma collect_words_ext (rev : gmap Z string)
    (truth truth' y y' : list (list Z)) (i : nat) (js : list nat) :
  ∀ sg sp,
  (∀ j, j ∈ js → np_get2 truth i j = np_get2 truth' i j ∧
                 np_get2 y i j = np_get2 y' i j) →
  collect_words rev truth y i js sg sp
  = collect_words rev truth' y' i js sg sp.
Proof.
  induction js as [|j js IH]; intros sg sp Hc; cbn [collect_words]; [done|].
  destruct (Hc j) as [-> ->]; [left|].
  destruct (np_get2 truth' i j) as [cg|]; [rewrite !bind_Done|done].
  destruct (dict_get rev cg) as [tg|]; [rewrite !bind_Done|done].
  destruct (np_get2 y' i j) as [cp|]; [rewrite !bind_Done|done].
  destruct (dict_get rev cp) as [tp|]; [rewrite !bind_Done|done].
  apply IH. intros j' Hj'. apply Hc. by right.
Qed.

Lemma collect_sentences_ext (rev : gmap Z string)
    (truth truth' y y' : list (list Z)) (valS : list Z) (idx : list nat) :
  ∀ golds preds,
  (∀ (i : nat) (n : Z) (j : nat),
     valS !! i = Some n → (j < Z.to_nat n)%nat →
     np_get2 truth i j = np_get2 truth' i j ∧
     np_get2 y i j = np_get2 y' i j) →
  collect_sentences rev truth y valS idx golds preds
  = collect_sentences rev truth' y' valS idx golds preds.
Proof.
  induction idx as [|i idx IH]; intros golds preds Hc;
    cbn [collect_sentences]; [done|].
  destruct (np_get valS i) as [n|] eqn:Hn; [rewrite !bind_Done|done].
  apply np_get_Done in Hn.
  rewrite (collect_words_ext rev truth truth' y y' i _ [] []).
  2:{ intros j [_ Hj]%elem_of_seq. apply (Hc i n j Hn). lia. }
  destruct (collect_words rev truth' y' i (seq 0 (Z.to_nat n)) [] [])
    as [[sg sp]|]; [rewrite !bind_Done|done].
  by apply IH.
Qed.

(** X15.  The callback reads the cells [j < int(valS[i])] of the two
    arrays and no other: what the network predicts for the padding of a
    sentence changes neither the scores nor the exception. *)
Theorem callback_ignores_padding {F : Type} `{PyNumber F}
    (reverse_tag_vocab : gmap Z string)
    (y_classes y_classes' truth truth' : list (list Z)) (valS : list Z) :
  length y_classes = length y_classes' →
  (∀ (i : nat) (n : Z) (j : nat),
     valS !! i = Some n → (j < Z.to_nat n)%nat →
     np_get2 truth i j = np_get2 truth' i j ∧
     np_get2 y_classes i j = np_get2 y_classes' i j) →
  on_epoch_end (F:=F) reverse_tag_vocab y_classes truth valS
  = on_epoch_end (F:=F) reverse_tag_vocab y_classes' truth' valS.
Proof.
  intros Hlen Hcells. unfold on_epoch_end, collect. rewrite Hlen.
  by rewrite (collect_sentences_ext _ truth truth' y_classes y_classes').
Qed.

Lemma callback_ignores_padding_witness :
  on_epoch_end (F:=Qc) (<[1 := "O"]> (<[2 := "B-x"]> ∅))
    [[2; 1; 0]; [2; 0; 0]] [[1; 2; 0]; [1; 0; 0]] [2; 1]
  = on_epoch_end (F:=Qc) (<[1 := "O"]> (<[2 := "B-x"]> ∅))
      [[2; 1; 7]; [2; 2; 1]] [[1; 2; 0]; [1; 5; 5]] [2; 1].
Proof.
  apply (callback_ignores_padding (F:=Qc)); [reflexivity|].
  intros [|[|i]] n j Hn Hj; simplify_eq/=.
  - destruct j as [|[|j]]; [done|done|lia].
  - destruct j as [|j]; [done|lia].
Defined.

Lemma calculateF1_Qc_total (gold predicted : list (list string)) :
  ∃ scores : Qc * Qc * Qc, calculateF1 gold predicted = Ok scores.
Proof.
  destruct (get_entities_total gold) as [gl Hg].
  destruct (get_entities_total predicted) as [pl Hp].
  pose proof (calculateF1_unfold (F:=Qc) (λ _, True)
                (λ m Hm _, Qc_len_nonzero m Hm) Qc_pos_nonzero
                gold predicted gl pl Hg Hp I I) as H.
  cbv zeta in H. eexists. exact H.
Qed.

Lemma cells_decoded (train : list (list (string * string)))
    (a : list (list Z)) (i : nat) (n : Z) :
  (∀ j, (j < Z.to_nat n)%nat →
        cell_in_vocab a (len (get_tag_vocab train)) i j) →
  ∃ tags, decoded (reverse_vocab (get_tag_vocab train)) a i n tags.
Proof.
  intros Hcells. apply Forall_exists_Forall2_l, Forall_forall.
  intros j [_ Hj]%elem_of_seq.
  destruct (Hcells j) as (c & Hc & Hin); [lia|].
  apply rev_tags_dom in Hin as [tag Htag]. by exists tag, c.
Qed.

(** X16.  The callback returns its three scores when, for each row [i] of
    the predictions, [valS[i]] exists and the cells [j < int(valS[i])] of
    both arrays hold ids of the vocabulary from which [rev_tags] was
    made (exact rationals). *)
Theorem callback_returns (train : list (list (string * string)))
    (y_classes truth : list (list Z)) (valS : list Z) :
  (∀ i, (i < length y_classes)%nat →
     ∃ n, valS !! i = Some n ∧
          ∀ j, (j < Z.to_nat n)%nat →
               cell_in_vocab truth (len (get_tag_vocab train)) i j ∧
               cell_in_vocab y_classes (len (get_tag_vocab train)) i j) →
  ∃ scores : Qc * Qc * Qc,
    on_epoch_end (reverse_vocab (get_tag_vocab train)) y_classes truth valS
    = Done scores.
Proof.
  intros Hcells.
  assert (∀ a, (∀ i n j, (i < length y_classes)%nat → valS !! i = Some n →
                  (j < Z.to_nat n)%nat →
                  cell_in_vocab a (len (get_tag_vocab train)) i j) →
            ∃ T, Forall2 (row_decoded (reverse_vocab (get_tag_vocab train))
                            a valS) (seq 0 (length y_classes)) T) as Hrows.
  { intros a Ha. apply Forall_exists_Forall2_l, Forall_forall.
    intros i [_ Hi]%elem_of_seq.
    destruct (Hcells i) as (n & Hn & _); [lia|].
    destruct (cells_decoded train a i n) as [tags Htags].
    { intros j Hj. apply (Ha i n j); [lia|done..]. }
    by exists tags, n. }
  destruct (Hrows truth) as [G HG].
  { intros i n j Hi Hn Hj. destruct (Hcells i Hi) as (n' & Hn' & Hc).
    simplify_eq. by apply Hc. }
  destruct (Hrows y_classes) as [P HP].
  { intros i n j Hi Hn Hj. destruct (Hcells i Hi) as (n' & Hn' & Hc).
    simplify_eq. by apply Hc. }
  destruct (calculateF1_Qc_total G P) as [scores Hscores].
  exists scores. unfold on_epoch_end.
  rewrite (proj2 (collect_iff _ _ _ _ G P) (conj HG HP)), bind_Done.
  by rewrite Hscores.
Qed.

Lemma callback_returns_witness :
  ∃ scores : Qc * Qc * Qc,
    on_epoch_end
      (reverse_vocab (get_tag_vocab [[("Paris", "B-loc"); ("is", "O")]]))
      [[2; 1; 0]] [[1; 2; 0]] [2]
    = Done scores.
Proof.
  apply (callback_returns [[("Paris", "B-loc"); ("is", "O")]]).
  intros [|i] Hi; [|simpl in Hi; lia]. exists 2. split; [done|].
  intros [|[|j]] Hj.
  - split; eexists; (split; [reflexivity|done]).
  - split; eexists; (split; [reflexivity|done]).
  - simpl in Hj. lia.
Defined.

(** X17.  A predicted class that is no id of the vocabulary, such as the
    padding class 0, at a word of a sentence makes the callback raise:
    no score is computed, whatever the other predictions are. *)
Theorem callback_raises {F : Type} `{PyNumber F}
    (train : list (list (string * string)))
    (y_classes truth : list (list Z)) (valS : list Z)
    (i j : nat) (n c : Z) :
  valS !! i = Some n → (j < Z.to_nat n)%nat →
  np_get2 y_classes i j = Done c →
  ¬ (1 ≤ c ≤ len (get_tag_vocab train)) →
  ∃ e, on_epoch_end (F:=F) (reverse_vocab (get_tag_vocab train))
         y_classes truth valS = Throw e ∧
       (e = KeyError ∨ e = IndexError).
Proof.
  intros Hn Hj Hc Hout. unfold on_epoch_end.
  destruct (collect (reverse_vocab (get_tag_vocab train)) y_classes truth
              valS) as [[G P]|e] eqn:Hcollect.
  - exfalso. apply collect_iff in Hcollect as [_ HP].
    apply np_get2_Done in Hc as (row & Hrow & Hcell).
    assert (i < length y_classes)%nat as Hi by by eapply lookup_lt_Some.
    destruct (Forall2_lookup_l _ _ _ i i HP) as (tags & _ & n' & Hn' & Hd).
    { by apply lookup_seq_lt. }
    simplify_eq.
    destruct (Forall2_lookup_l _ _ _ j j Hd) as (tag & _ & c' & Hc' & Htag).
    { by apply lookup_seq_lt. }
    apply np_get2_Done in Hc' as (row' & Hrow' & Hcell'). simplify_eq.
    apply Hout, rev_tags_dom. by exists tag.
  - exists e. split; [done|]. by eapply collect_sentences_throw.
Qed.

Lemma callback_raises_witness :
  ∃ e, on_epoch_end (F:=Qc)
         (reverse_vocab (get_tag_vocab [[("Paris", "B-loc"); ("is", "O")]]))
         [[2; 0; 0]] [[1; 2; 0]] [2] = Throw e ∧
       (e = KeyError ∨ e = IndexError).
Proof.
  apply (callback_raises (F:=Qc) [[("Paris", "B-loc"); ("is", "O")]]
           [[2; 0; 0]] [[1; 2; 0]] [2] 0 1 2 0).
  - reflexivity.
  - simpl. lia.
  - reflexivity.
  - vm_compute. intros [H1 _]. by apply H1.
Defined.

(** The class that [argmax] reads in the tag rows of [get_word_ids] at a
    word of a sentence is the id of the tag of the word. *)
Lemma truth_cell (label_vocab : gmap string Z) (d m : Z)
    (dev : list (list (string * string))) (i j : nat)
    (sentence : list (string * string)) (word tag : string) (label : Z) :
  dev !! i = Some sentence → sentence !! j = Some (word, tag) →
  label_vocab !! tag = Some label → 0 ≤ label < d →
  np_get2 (fmap (M:=list) argmax <$> (encoded_tags label_vocab d m <$> dev)) i j
  = Done label.
Proof.
  intros Hs Hwt Hl Hd. apply np_get2_Done.
  exists (argmax <$> encoded_tags label_vocab d m sentence). split.
  - by rewrite !list_lookup_fmap, Hs.
  - rewrite list_lookup_fmap. unfold encoded_tags.
    rewrite lookup_app_l.
    2:{ rewrite !length_fmap. by eapply lookup_lt_Some. }
    rewrite !list_lookup_fmap, Hwt. simpl. rewrite Hl. simpl.
    by rewrite argmax_one_hot.
Qed.

(** X18.  The gold tags that the callback scores against are the tags of
    the validation data: encoding them with [get_word_ids], taking the
    [argmax] of the rows and decoding with [rev_tags] up to the length of
    each sentence gives the tags back, whatever the padding is. *)
Theorem callback_golds (lower : string → string)
    (train dev : list (list (string * string)))
    (word_vocab : gmap string Z)
    (valX : list (list Z)) (valY : list (list (list Z))) (valS : list Z)
    (y_classes : list (list Z)) (golds preds : list (list string)) :
  get_word_ids lower dev word_vocab (as_dict (get_tag_vocab train))
  = Done (valX, valY, valS) →
  length y_classes = length dev →
  collect (reverse_vocab (get_tag_vocab train)) y_classes
    (fmap (M:=list) argmax <$> valY) valS = Done (golds, preds) →
  golds = tags_of dev.
Proof.
  intros Hget Hlen [HG _]%collect_iff.
  rewrite (get_word_ids_spec _ _ _ _ (vocab_ids_valid train dev)) in Hget.
  destruct (decide (all_known _ dev)) as [Hknown|]; [|done].
  simplify_eq. rewrite Hlen in HG.
  eapply Forall2_unique; [exact HG| |].
  - apply Forall2_same_length_lookup_2.
    { unfold tags_of. by rewrite length_seq, length_fmap. }
    intros i i' tags [-> Hi]%lookup_seq Htags. simpl.
    unfold tags_of in Htags. rewrite list_lookup_fmap in Htags.
    destruct (dev !! i) as [sentence|] eqn:Hs; [|done]. simplify_eq/=.
    exists (len sentence). split; [by rewrite list_lookup_fmap, Hs|].
    unfold decoded, len. rewrite Nat2Z.id.
    apply Forall2_same_length_lookup_2.
    { by rewrite length_seq, length_fmap. }
    intros j j' tag [-> Hj]%lookup_seq Htag. simpl.
    rewrite list_lookup_fmap in Htag.
    destruct (sentence !! j) as [[word tag']|] eqn:Hwt; [|done].
    simplify_eq/=.
    unfold all_known in Hknown. rewrite Forall_forall in Hknown.
    pose proof (Hknown sentence (list_elem_of_lookup_2 _ _ _ Hs)) as Hsent.
    rewrite Forall_forall in Hsent.
    destruct (Hsent (word, tag) (list_elem_of_lookup_2 _ _ _ Hwt))
      as [label Hlabel].
    simpl in Hlabel. exists label. split.
    + eapply truth_cell; [done..|].
      pose proof (vocab_lookup _ _ _ Hlabel). lia.
    + by apply rev_tags_lookup.
  - intros i t1 t2 (n1 & Hn1 & Hd1) (n2 & Hn2 & Hd2). simplify_eq.
    eapply Forall2_unique; [exact Hd1|exact Hd2|].
    intros j tag1 tag2 (c1 & Hc1 & Ht1) (c2 & Hc2 & Ht2). congruence.
Qed.

Lemma callback_golds_witness :
  [["B-loc"; "O"]; ["O"]]
  = tags_of [[("Paris", "B-loc"); ("is", "O")]; [("is", "O")]].
Proof.
  apply (callback_golds (λ s, s)
           [[("Paris", "B-loc"); ("is", "O")]]
           [[("Paris", "B-loc"); ("is", "O")]; [("is", "O")]]
           (<["is" := 2]> ∅)
           [[1; 2]; [2; 0]]
           [[[0; 1; 0]; [0; 0; 1]]; [[0; 0; 1]; [1; 0; 0]]]
           [2; 1]
           [[2; 2]; [1; 0]]
           [["B-loc"; "O"]; ["O"]] [["O"; "O"]; ["B-loc"]]).
  - vm_compute. reflexivity.
  - reflexivity.
  - vm_compute. reflexivity.
Defined.

(** ** [predict] *)

Lemma encode_words_wids (lower : string → string)
    (word_vocab label_vocab : gmap string Z) (d : Z)
    (sentence : list (string * string)) : ∀ wids tids w t,
  encode_words lower word_vocab label_vocab d sentence wids tids
  = Done (w, t) →
  w = wids ++ (word_id lower word_vocab <$> sentence.*1).
Proof.
  induction sentence as [|[word tag] sentence IH]; intros wids tids w t;
    cbn [encode_words].
  - intros [= <- <-]. by rewrite app_nil_r.
  - destruct (dict_get label_vocab tag) as [label|]; [|throw_case].
    rewrite bind_Done.
    destruct (to_categorical label d) as [row|]; [|throw_case].
    rewrite bind_Done. intros ->%IH. by rewrite <- app_assoc.
Qed.

Lemma pad_words_wids (d : Z) (n : nat) : ∀ wids tids w t,
  pad_words d n wids tids = Done (w, t) → w = wids ++ replicate n 0.
Proof.
  induction n as [|n IH]; intros wids tids w t; cbn [pad_words].
  - intros [= <- <-]. by rewrite app_nil_r.
  - destruct (to_categorical 0 d) as [row|]; [|throw_case].
    rewrite bind_Done. intros ->%IH. by rewrite <- app_assoc.
Qed.

Lemma encode_sentences_wids (lower : string → string)
    (word_vocab label_vocab : gmap string Z) (d m : Z)
    (sentences : list (list (string * string))) : ∀ X0 Y0 S0 X Y S,
  encode_sentences lower word_vocab label_vocab d m sentences (X0, Y0, S0)
  = Done (X, Y, S) →
  X = X0 ++ (encoded_words lower word_vocab m <$> sentences).
Proof.
  induction sentences as [|sentence sentences IH]; intros X0 Y0 S0 X Y S;
    cbn [encode_sentences].
  - intros [= <- <- <-]. by rewrite app_nil_r.
  - destruct (encode_words lower word_vocab label_vocab d sentence [] [])
      as [[wids tids]|] eqn:Hw; [|throw_case].
    rewrite bind_Done. apply encode_words_wids in Hw as ->.
    destruct (pad_words d _ _ tids) as [[wids' tids']|] eqn:Hp;
      [|throw_case].
    rewrite bind_Done. apply pad_words_wids in Hp as ->.
    intros ->%IH. rewrite <- app_assoc. simpl. do 3 f_equal.
    unfold encoded_words, len. by rewrite !length_fmap.
Qed.

Lemma predict_wids_word_id (lower : string → string)
    (word_vocab : gmap string Z) (words : list string) :
  word_id lower word_vocab <$> words = predict_wids lower word_vocab words
  ↔ Forall (λ word, is_Some (word_vocab !! lower word)) words.
Proof.
  unfold predict_wids. induction words as [|word words IH].
  - split; [constructor|done].
  - rewrite !fmap_cons, Forall_cons, <- IH. unfold word_id at 1.
    destruct (word_vocab !! lower word) as [v|]; split.
    + intros [= Heq]. by split.
    + intros [_ ->]. done.
    + intros [= Heq].
    + intros [[v Hv] _]. done.
Qed.

(** X19.  [predict] and [get_word_ids] give a sentence the same word ids
    exactly when each of its words is in [word_vocab]: a word that is not
    gets id 1 from [get_word_ids] and the padding id 0 from [predict]. *)
Theorem predict_word_ids (lower : string → string)
    (sentences : list (list (string * string)))
    (word_vocab label_vocab : gmap string Z)
    (X : list (list Z)) (Y : list (list (list Z))) (S : list Z)
    (i : nat) (sentence : list (string * string)) (wids : list Z) :
  get_word_ids lower sentences word_vocab label_vocab = Done (X, Y, S) →
  sentences !! i = Some sentence → X !! i = Some wids →
  take (length sentence) wids = predict_wids lower word_vocab sentence.*1
  ↔ Forall (λ word, is_Some (word_vocab !! lower word)) sentence.*1.
Proof.
  unfold get_word_ids. intros HX%encode_sentences_wids Hs Hw.
  simpl in HX. subst X. rewrite list_lookup_fmap, Hs in Hw.
  simplify_eq/=. unfold encoded_words.
  rewrite take_app_length' by by rewrite !length_fmap.
  apply predict_wids_word_id.
Qed.

Lemma predict_word_ids_witness :
  take (length [("Paris", "B-loc"); ("is", "O")]) [1; 2]
  = predict_wids (λ s, s) (<["is" := 2]> ∅)
      [("Paris", "B-loc"); ("is", "O")].*1
  ↔ Forall (λ word, is_Some ((<["is" := 2]> ∅ : gmap string Z) !! word))
      [("Paris", "B-loc"); ("is", "O")].*1.
Proof.
  apply (predict_word_ids (λ s, s)
           [[("Paris", "B-loc"); ("is", "O")]; [("is", "O")]]
           (<["is" := 2]> ∅)
           (as_dict (get_tag_vocab [[("Paris", "B-loc"); ("is", "O")]]))
           [[1; 2]; [2; 0]]
           [[[0; 1; 0]; [0; 0; 1]]; [[0; 0; 1]; [1; 0; 0]]]
           [2; 1] 0).
  - vm_compute. reflexivity.
  - reflexivity.
  - reflexivity.
Defined.

Lemma mapM_dict_get_Done (rev : gmap Z string) (cs : list Z)
    (tags : list string) :
  Forall2 (λ c tag, rev !! c = Some tag) cs tags →
  mapM (dict_get rev) cs = Done tags.
Proof.
  induction 1 as [|c tag cs tags Hc _ IH]; [done|]. simpl.
  apply dict_get_Done in Hc. by rewrite Hc, bind_Done, IH.
Qed.

Lemma mapM_dict_get_Throw (rev : gmap Z string) (cs : list Z) :
  ¬ Forall (λ c, is_Some (rev !! c)) cs →
  mapM (dict_get rev) cs = Throw KeyError.
Proof.
  induction cs as [|c cs IH]; intros Hnot.
  - destruct Hnot. constructor.
  - simpl. destruct (dict_get rev c) as [tag|e] eqn:Hc.
    + apply dict_get_Done in Hc. rewrite bind_Done, IH; [done|].
      intros Hall. apply Hnot. by constructor.
    + by apply dict_get_throw in Hc as ->.
Qed.

(** X20.  [predict] prints one line per word, the word and the tag of its
    class, when every class that the network gives is an id of the
    vocabulary; when one is not, such as the padding class 0, it raises
    [KeyError] and prints nothing. *)
Theorem predict_lines (lower : string → string)
    (word_vocab : gmap string Z) (classes : list Z → list Z)
    (train : list (list (string * string))) (text : string) :
  (Forall (λ c, 1 ≤ c ≤ len (get_tag_vocab train))
     (classes (predict_wids lower word_vocab (str_split " " text))) →
   ∃ predicted,
     Forall2 (λ c tag, as_dict (get_tag_vocab train) !! tag = Some c)
       (classes (predict_wids lower word_vocab (str_split " " text)))
       predicted ∧
     predict lower word_vocab classes (reverse_vocab (get_tag_vocab train))
       text
     = Done ((λ wt, tsv_line wt.1 wt.2)
             <$> zip (str_split " " text) predicted)) ∧
  (¬ Forall (λ c, 1 ≤ c ≤ len (get_tag_vocab train))
       (classes (predict_wids lower word_vocab (str_split " " text))) →
   predict lower word_vocab classes (reverse_vocab (get_tag_vocab train))
     text
   = Throw KeyError).
Proof.
  unfold predict. cbv zeta.
  generalize (classes (predict_wids lower word_vocab (str_split " " text))).
  intros cs. split.
  - intros Hall.
    assert (∃ predicted,
              Forall2 (λ c tag, reverse_vocab (get_tag_vocab train) !! c
                                = Some tag) cs predicted)
      as [predicted Hp].
    { apply Forall_exists_Forall2_l. eapply Forall_impl; [exact Hall|].
      intros c Hc. by apply rev_tags_dom. }
    exists predicted. split.
    + eapply Forall2_impl; [exact Hp|]. intros c tag. apply rev_tags_lookup.
    + by rewrite (mapM_dict_get_Done _ _ _ Hp), bind_Done.
  - intros Hnot. rewrite mapM_dict_get_Throw; [done|].
    intros Hall. apply Hnot. eapply Forall_impl; [exact Hall|].
    intros c Hc. by apply rev_tags_dom.
Qed.

(** * More on the scorer *)

(** ** Datasets without a chunk *)

Lemma after_word_no_begin s w tag st :
  begins tag = false → start st = None →
  ents (after_word s w tag st) = ents st ∧
  start (after_word s w tag st) = None.
Proof.
  unfold begins, after_word. intros Hb Hs.
  destruct (classify tag); [done| |]; destruct st as [l b sc c0];
    simpl in *; by subst.
Qed.

Lemma scan_words_no_begin s sent : ∀ w st,
  Forall (λ tag, begins tag = false) sent → start st = None →
  ∃ st', scan_words s w sent st = Ok st' ∧
         ents st' = ents st ∧ start st' = None.
Proof.
  induction sent as [|tag rest IH]; intros w st Hall Hs; simpl.
  - by exists st.
  - apply Forall_cons in Hall as [Htag Hrest].
    rewrite word_body_spec, bind_Ok.
    destruct (after_word_no_begin s w tag st Htag Hs) as [He Hs'].
    destruct (IH (w + 1) _ Hrest Hs') as (st' & -> & He' & Hs'').
    exists st'. by rewrite He', He.
Qed.

Lemma scan_sentences_no_begin sequences : ∀ s st,
  Forall (Forall (λ tag, begins tag = false)) sequences →
  ∃ st', scan_sentences s sequences st = Ok st' ∧ ents st' = ents st.
Proof.
  induction sequences as [|sent rest IH]; intros s st Hall; simpl.
  - by exists st.
  - apply Forall_cons in Hall as [Hsent Hrest]. unfold sentence_body.
    destruct (scan_words_no_begin s sent 0 (reset_start st) Hsent eq_refl)
      as (st1 & -> & He & Hs).
    rewrite bind_Ok, Hs. simpl.
    destruct (IH (s + 1) st1 Hrest) as (st' & -> & He').
    exists st'. by rewrite He', He.
Qed.

Lemma get_entities_no_begin sequences :
  Forall (Forall (λ tag, begins tag = false)) sequences →
  get_entities sequences = Ok [].
Proof.
  intros Hall. unfold get_entities.
  destruct (scan_sentences_no_begin sequences 0 entry Hall)
    as (st' & Hscan & He).
  by rewrite Hscan, bind_Ok, He.
Qed.

Lemma Qc_zero_div (x : Qc) : (of_int 0 / x)%Qc = of_int 0.
Proof.
  change (of_int (F:=Qc) 0) with (Q2Qc 0). unfold Qcdiv.
  apply Qcmult_0_l.
Qed.

Lemma float_zero_div (n : Z) :
  0 < n < 2 ^ 53 →
  PrimFloat.div (of_int (F:=float) 0) (of_int (F:=float) n)
  = of_int (F:=float) 0.
Proof.
  intros Hn. destruct (of_int_float_finite n Hn) as (m & e & H).
  apply Prim2SF_inj. rewrite FloatAxioms.div_spec, H. reflexivity.
Qed.

(** X21.  Tags that open no chunk give no chunk, and no score: when no tag
    of the predictions has the form [B-<cat>] (all [O], say, or [I-] tags
    with no [B-] before them), [calculateF1] returns (0, 0, 0) and divides
    by nothing; likewise when no gold tag has. *)
Theorem no_begin_tag_scores_zero (gold predicted : list (list string))
    (G : gset chunk) :
  Forall (Forall (λ tag, begins tag = false)) predicted →
  extract gold = Ok G →
  get_entities predicted = Ok [] ∧
  calculateF1 (F:=Qc) gold predicted = Ok (0, 0, 0)%Qc ∧
  calculateF1 (F:=Qc) predicted gold = Ok (0, 0, 0)%Qc ∧
  (len_set G < 2 ^ 53 →
   calculateF1 (F:=float) gold predicted = Ok (0, 0, 0)%float ∧
   calculateF1 (F:=float) predicted gold = Ok (0, 0, 0)%float).
Proof.
  intros Hp%get_entities_no_begin. unfold extract.
  destruct (get_entities gold) as [gl|] eqn:Hg; [|done].
  rewrite bind_Ok. intros [= <-].
  assert (H0 : len_set (list_to_set [] : gset chunk) = 0) by done.
  split_and!; [done| | |intros Hlt; split].
  - rewrite (calculateF1_unfold (F:=Qc) (λ _, True)
               (λ m Hm _, Qc_len_nonzero m Hm) Qc_pos_nonzero
               gold predicted gl [] Hg Hp I I).
    cbv zeta. change (list_to_set [] : gset chunk) with (∅ : gset chunk).
    rewrite (right_absorb_L ∅ (∩)), size_empty.
    destruct (decide (0 < 0)%nat); [lia|].
    change (num_quot (F:=Qc)) with Qcdiv. change (len_set ∅) with 0.
    rewrite Qc_zero_div.
    by destruct (decide _);
      apply f_equal, f_equal2; [apply f_equal2| |apply f_equal2|];
      try apply Qc_is_canon.
  - rewrite (calculateF1_unfold (F:=Qc) (λ _, True)
               (λ m Hm _, Qc_len_nonzero m Hm) Qc_pos_nonzero
               predicted gold [] gl Hp Hg I I).
    cbv zeta. change (list_to_set [] : gset chunk) with (∅ : gset chunk).
    rewrite (left_absorb_L ∅ (∩)), size_empty.
    destruct (decide (0 < 0)%nat); [lia|].
    change (num_quot (F:=Qc)) with Qcdiv. change (len_set ∅) with 0.
    rewrite Qc_zero_div.
    by destruct (decide _);
      apply f_equal, f_equal2; [apply f_equal2| |apply f_equal2|];
      try apply Qc_is_canon.
  - rewrite (calculateF1_unfold (F:=float) (λ m, m < 2 ^ 53)
               float_len_nonzero float_pos_nonzero
               gold predicted gl [] Hg Hp Hlt ltac:(done)).
    cbv zeta. change (list_to_set [] : gset chunk) with (∅ : gset chunk).
    rewrite (right_absorb_L ∅ (∩)), size_empty.
    destruct (decide (0 < 0)%nat); [lia|].
    change (num_quot (F:=float)) with PrimFloat.div.
    change (len_set ∅) with 0.
    destruct (decide _); [|reflexivity].
    rewrite float_zero_div by (unfold len_set in *; lia). reflexivity.
  - rewrite (calculateF1_unfold (F:=float) (λ m, m < 2 ^ 53)
               float_len_nonzero float_pos_nonzero
               predicted gold [] gl Hp Hg ltac:(done) Hlt).
    cbv zeta. change (list_to_set [] : gset chunk) with (∅ : gset chunk).
    rewrite (left_absorb_L ∅ (∩)), size_empty.
    destruct (decide (0 < 0)%nat); [lia|].
    change (num_quot (F:=float)) with PrimFloat.div.
    change (len_set ∅) with 0.
    destruct (decide _); [|reflexivity].
    rewrite float_zero_div by (unfold len_set in *; lia). reflexivity.
Qed.

Lemma no_begin_tag_scores_zero_witness :
  get_entities [["O"; "I-PER"; "O"; "O"; "O"; "O"; "O"]; ["O"; "O"; "O"]]
  = Ok [] ∧
  calculateF1 (F:=Qc) gold_example
    [["O"; "I-PER"; "O"; "O"; "O"; "O"; "O"]; ["O"; "O"; "O"]]
  = Ok (0, 0, 0)%Qc ∧
  calculateF1 (F:=float) gold_example
    [["O"; "I-PER"; "O"; "O"; "O"; "O"; "O"]; ["O"; "O"; "O"]]
  = Ok (0, 0, 0)%float.
Proof.
  assert (HG : extract gold_example
               = Ok ({[ (0, 0, 1, Some "PER"); (0, 6, 6, Some "ORG") ]}
                     : gset chunk))
    by (vm_compute; reflexivity).
  destruct (no_begin_tag_scores_zero gold_example
              [["O"; "I-PER"; "O"; "O"; "O"; "O"; "O"]; ["O"; "O"; "O"]]
              _ ltac:(repeat constructor) HG)
    as (Hents & Hexact & _ & Hbinary).
  split_and!; [exact Hents|exact Hexact|].
  apply Hbinary. vm_compute. reflexivity.
Defined.

(** ** Symmetry of the scores *)

Lemma harmonic_comm (p r : Qc) :
  (if num_gt (num_add r p) (of_int 0)
   then num_quot (num_mul (num_mul (of_int 2) r) p) (num_add r p)
   else of_int 0)
  = (if num_gt (num_add p r) (of_int 0)
     then num_quot (num_mul (num_mul (of_int 2) p) r) (num_add p r)
     else of_int 0).
Proof.
  simpl. rewrite (Qcplus_comm r p).
  by replace (Q2Qc (inject_Z 2) * r * p)%Qc
    with (Q2Qc (inject_Z 2) * p * r)%Qc by ring.
Qed.

(** X22.  Exchanging the gold data and the predictions exchanges precision
    and recall: in binary64 (less than 2^53 chunks on either side), and
    with exact rationals, where F1 is also unchanged. *)
Theorem score_swap (gold predicted : list (list string)) :
  (∃ precision recall F1 : Qc,
     calculateF1 gold predicted = Ok (precision, recall, F1) ∧
     calculateF1 predicted gold = Ok (recall, precision, F1)) ∧
  ∃ G P : gset chunk,
    extract gold = Ok G ∧ extract predicted = Ok P ∧
    (len_set G < 2 ^ 53 → len_set P < 2 ^ 53 →
     ∃ precision recall F1 F1' : float,
       calculateF1 gold predicted = Ok (precision, recall, F1) ∧
       calculateF1 predicted gold = Ok (recall, precision, F1')).
Proof.
  destruct (get_entities_total gold) as [gl Hg].
  destruct (get_entities_total predicted) as [pl Hp].
  split.
  - pose proof (calculateF1_unfold (F:=Qc) (λ _, True)
                  (λ m Hm _, Qc_len_nonzero m Hm) Qc_pos_nonzero
                  gold predicted gl pl Hg Hp I I) as H1.
    pose proof (calculateF1_unfold (F:=Qc) (λ _, True)
                  (λ m Hm _, Qc_len_nonzero m Hm) Qc_pos_nonzero
                  predicted gold pl gl Hp Hg I I) as H2.
    cbv zeta in H1, H2.
    rewrite (comm_L (∩) (list_to_set pl) (list_to_set gl)) in H2.
    eexists _, _, _. split; [exact H1|]. rewrite H2.
    do 2 f_equal. apply harmonic_comm.
  - exists (list_to_set gl), (list_to_set pl).
    unfold extract. rewrite Hg, Hp, !bind_Ok.
    split; [done|]. split; [done|]. intros HG HP.
    pose proof (calculateF1_unfold (F:=float) (λ m, m < 2 ^ 53)
                  float_len_nonzero float_pos_nonzero
                  gold predicted gl pl Hg Hp HG HP) as H1.
    pose proof (calculateF1_unfold (F:=float) (λ m, m < 2 ^ 53)
                  float_len_nonzero float_pos_nonzero
                  predicted gold pl gl Hp Hg HP HG) as H2.
    cbv zeta in H1, H2.
    rewrite (comm_L (∩) (list_to_set pl) (list_to_set gl)) in H2.
    eexists _, _, _, _. split; [exact H1|exact H2].
Qed.
